(** * EvalLearningTools: feature-index layout and weight update

    A shallow embedding of [source/learn/learning_tools.h]: the three
    serialised index families [KK], [KKP], [KPP] and the two variants of
    [Weight::updateFV]. *)

From Stdlib Require Import ZArith List Lia Bool Permutation.
From Stdlib Require Import SpecFloat.
Import ListNotations.
Local Open Scope Z_scope.

(** ** Machine integers

    [u64] arithmetic wraps modulo [2^64]; a conversion to a signed type
    of [w] bits keeps the low [w] bits, read in two's complement. *)

Definition u64 (x : Z) : Z := x mod 2 ^ 64.

Definition sint (w x : Z) : Z := (x + 2 ^ (w - 1)) mod 2 ^ w - 2 ^ (w - 1).

Definition s8 (x : Z) : Z := sint 8 x.
Definition s16 (x : Z) : Z := sint 16 x.

Definition INT16_MAX : Z := 32767.
Definition INT16_MIN : Z := -32768.

(** ** Floating point

    IEEE 754 binary formats, computed with the operations of
    [SpecFloat]: a format is a precision and an exponent bound. *)

Definition prec64 : Z := 53.
Definition emax64 : Z := 1024.

Definition dadd : spec_float -> spec_float -> spec_float := SFadd prec64 emax64.
Definition dsub : spec_float -> spec_float -> spec_float := SFsub prec64 emax64.
Definition dmul : spec_float -> spec_float -> spec_float := SFmul prec64 emax64.
Definition ddiv : spec_float -> spec_float -> spec_float := SFdiv prec64 emax64.
Definition dsqrt : spec_float -> spec_float := SFsqrt prec64 emax64.

(** [(double)n] for an integer [n]. *)
Definition double_of_Z (n : Z) : spec_float :=
  binary_normalize prec64 emax64 n 0 false.

(** [(double)x] for [x] of another binary format. *)
Definition double_of_float (x : spec_float) : spec_float :=
  match x with
  | S754_finite s m e =>
      binary_normalize prec64 emax64 (cond_Zopp s (Zpos m)) e false
  | _ => x
  end.

(** [std::min(a, b)] is [(b < a) ? b : a] and [std::max(a, b)] is
    [(a < b) ? b : a]. *)
Definition dmin (a b : spec_float) : spec_float := if SFltb b a then b else a.
Definition dmax (a b : spec_float) : spec_float := if SFltb a b then b else a.

Definition imin (a b : Z) : Z := if b <? a then b else a.
Definition imax (a b : Z) : Z := if a <? b then b else a.

(** The integer nearest to a finite [x], halves away from zero. *)
Definition Zround_away (x : spec_float) : Z :=
  match x with
  | S754_finite s m (Zneg k) =>
      cond_Zopp s ((Zpos m + 2 ^ (Zpos k - 1)) / 2 ^ Zpos k)
  | S754_finite s m e => cond_Zopp s (Zpos m * 2 ^ e)
  | _ => 0
  end.

(** [round(x)] of <cmath>. *)
Definition dround (x : spec_float) : spec_float :=
  match x with
  | S754_finite s m (Zneg k) =>
      binary_normalize prec64 emax64 (Zround_away x) 0 s
  | _ => x
  end.

(** The integer part of a finite [x]: the conversion of a floating
    value to an integer type discards the fraction.  The conversion is
    undefined for a NaN, an infinity or a value out of the range of the
    target; the model gives [0] for the first two and wraps the last. *)
Definition Ztrunc (x : spec_float) : Z :=
  match x with
  | S754_finite s m (Zneg k) => cond_Zopp s (Zpos m / 2 ^ Zpos k)
  | S754_finite s m e => cond_Zopp s (Zpos m * 2 ^ e)
  | _ => 0
  end.

(** A finite float whose mantissa is below [2^prec]. *)
Definition mant_bounded (prec : Z) (x : spec_float) : Prop :=
  match x with
  | S754_finite _ m _ => Zpos m < 2 ^ prec
  | _ => True
  end.

(** [m * 2^e <= c], and a float of magnitude at most [c / 2]. *)
Definition pow2le (m e c : Z) : Prop :=
  (0 <= e -> m * 2 ^ e <= c) /\ (e < 0 -> m <= c * 2 ^ (- e)).

Definition half_le (x : spec_float) (c : Z) : Prop :=
  match x with
  | S754_zero _ => True
  | S754_finite _ m e => pow2le (Zpos m) (e + 1) c
  | _ => False
  end.

(** A two-element [std::array], indexed by [0] and [1]. *)
Definition array2 (A : Type) : Type := (A * A)%type.

Definition aget {A} (a : array2 A) (i : nat) : A :=
  match i with O => fst a | _ => snd a end.

Definition aset {A} (a : array2 A) (i : nat) (x : A) : array2 A :=
  match i with O => (x, snd a) | _ => (fst a, x) end.

(** The clamp bounds [(double)INT16_MAX * 3 / 4] and
    [(double)INT16_MIN * 3 / 4]. *)
Definition clamp_hi : spec_float :=
  ddiv (dmul (double_of_Z INT16_MAX) (double_of_Z 3)) (double_of_Z 4).
Definition clamp_lo : spec_float :=
  ddiv (dmul (double_of_Z INT16_MIN) (double_of_Z 3)) (double_of_Z 4).

(** ** Weight, ADA_GRAD_UPDATE *)

Module AdaGrad.

Record Weight := mkWeight {
  g : array2 spec_float;
  g2 : array2 spec_float;
  v8 : array2 Z
}.

Section UpdateFV.

(** [LearnFloatType] is a typedef of learn.h: its format is a
    parameter.  [T] is the element type of the live values, a signed
    integer type of [Tbits] bits.  [eta] is the static member. *)
Variables lprec lemax : Z.
Variable Tbits : Z.
Variable eta : spec_float.

(** [constexpr double epsilon = 0.000001;] *)
Definition epsilon : spec_float :=
  ddiv (double_of_Z 1) (double_of_Z 1000000).

(** The body of the loop for channel [i]. *)
Definition updateFV_body (i : nat) (st : Weight * array2 Z)
  : Weight * array2 Z :=
  let (w, v) := st in
  if SFeqb (aget (g w) i) (S754_zero false) then st
  else
    let g2i :=
      SFadd lprec lemax (aget (g2 w) i)
            (SFmul lprec lemax (aget (g w) i) (aget (g w) i)) in
    let V := dadd (double_of_Z (aget v i))
                  (ddiv (double_of_Z (aget (v8 w) i)) (double_of_Z 127)) in
    let V := dsub V (ddiv (dmul eta (double_of_float (aget (g w) i)))
                          (dsqrt (dadd (double_of_float g2i) epsilon))) in
    let V := dmin clamp_hi V in
    let V := dmax clamp_lo V in
    let vi := sint Tbits (Ztrunc (dround V)) in
    let v8i := s8 (Ztrunc (dmul (dsub V (double_of_Z vi)) (double_of_Z 127))) in
    (mkWeight (g w) (aset (g2 w) i g2i) (aset (v8 w) i v8i), aset v i vi).

(** [for (int i = 0; i < 2; ++i)] *)
Definition updateFV (w : Weight) (v : array2 Z) : Weight * array2 Z :=
  fold_left (fun st i => updateFV_body i st) [0%nat; 1%nat] (w, v).

End UpdateFV.

End AdaGrad.

(** ** Weight, SGD_UPDATE *)

Module SGD.

Record Weight := mkWeight { g : array2 spec_float }.

Section UpdateFV.

Variable Tbits : Z.

(** The random source [static PRNG rand]: [rand s n] is the value of
    [rand.rand(n)] in state [s] and the state after the call. *)
Variable PRNG : Type.
Variable rand : PRNG -> Z -> Z * PRNG.

(** [V--] or [V++] by the sign of the gradient; [V] has the type [T] of
    [v[i]]. *)
Definition sign_step (gi : spec_float) (V : Z) : Z :=
  if SFltb (S754_zero false) (double_of_float gi)
  then sint Tbits (V - 1) else sint Tbits (V + 1).

(** The two lines that bound [V]. *)
Definition clamp (V : Z) : Z :=
  let V := sint Tbits (imin (s16 (Ztrunc clamp_hi)) (s16 V)) in
  let V := sint Tbits (imax (s16 (Ztrunc clamp_lo)) (s16 V)) in
  V.

(** The value stored into [v[i]] once the draw has let the update
    through. *)
Definition nudge (gi : spec_float) (vi : Z) : Z :=
  clamp (sign_step gi vi).

(** What the body does with [v[i]] when [rand.rand(3)] returns [r]:
    [None] is the [continue]. *)
Definition on_draw (gi : spec_float) (r vi : Z) : option Z :=
  if negb (r =? 0) then None else Some (nudge gi vi).

Definition updateFV_body (w : Weight) (i : nat) (st : PRNG * array2 Z)
  : PRNG * array2 Z :=
  let (s, v) := st in
  if SFeqb (aget (g w) i) (S754_zero false) then st
  else
    let (r, s') := rand s 3 in
    match on_draw (aget (g w) i) r (aget v i) with
    | None => (s', v)
    | Some V => (s', aset v i V)
    end.

Definition updateFV (w : Weight) (s : PRNG) (v : array2 Z)
  : PRNG * array2 Z :=
  fold_left (fun st i => updateFV_body w i st) [0%nat; 1%nat] (s, v).

End UpdateFV.

(** A random source given by the list of its coming outcomes. *)
Definition script_rand (s : list Z) (n : Z) : Z * list Z :=
  (hd 0 s mod n, tl s).

End SGD.

(** ** Sample values

    [float] is binary32; [eta_30] is a learning rate of 30. *)

Definition prec32 : Z := 24.
Definition emax32 : Z := 128.

Definition float_of_Z (n : Z) : spec_float :=
  binary_normalize prec32 emax32 n 0 false.

Definition eta_30 : spec_float := double_of_Z 30.

(** A record with gradient 1 on channel 0 and none on channel 1. *)
Definition adagrad_sample : AdaGrad.Weight :=
  AdaGrad.mkWeight (float_of_Z 1, S754_zero false)
                   (S754_zero false, S754_zero false) (0, 0).

(** The same with a negative zero on channel 0 and gradient 1 on
    channel 1. *)
Definition adagrad_sample_zero : AdaGrad.Weight :=
  AdaGrad.mkWeight (S754_zero true, float_of_Z 1)
                   (float_of_Z 4, S754_zero false) (5, 0).

Definition sgd_sample : SGD.Weight :=
  SGD.mkWeight (float_of_Z 1, float_of_Z (-1)).

(** The live pair after [updateFV] on [sgd_sample] from [(0, 0)] when
    the first call of [rand.rand(3)] returns [r] and the second 0. *)
Definition sgd_run (r : Z) : array2 Z :=
  snd (SGD.updateFV 16 (list Z) SGD.script_rand sgd_sample [r; 0] (0, 0)).

(** ** The index families *)

(** The mirror of a square of the 9x9 board, files numbered from the
    right ([sq = 9 * file + rank]), and a table that reverses the piece
    codes below [n]: instances for [Mir] and [mir_piece]. *)
Definition mirror_file9 (sq : Z) : Z := (8 - sq / 9) * 9 + sq mod 9.
Definition reverse_codes (n p : Z) : Z := n - 1 - p.

Record KK := mkKK { KK_king0 : Z; KK_king1 : Z }.
Record KKP := mkKKP { KKP_king0 : Z; KKP_king1 : Z; KKP_piece : Z }.
Record KPP := mkKPP { KPP_king : Z; KPP_piece0 : Z; KPP_piece1 : Z }.

Section FeatureIndex.

(** [SQ_NB] and [Eval::fe_end] are enumerators of [Square] and
    [Eval::BonaPiece]; both enumerations are declared elsewhere in the
    engine, so the constants and the widths of the two types are
    parameters here, and so are [Mir] and the table [mir_piece]. *)
Variables SQ_NB fe_end : Z.
Variables sq_bits bp_bits : Z.
Variable Mir : Z -> Z.
Variable mir_piece : Z -> Z.

(** [(Square)x] and [(Eval::BonaPiece)x] for a [u64] value [x]. *)
Definition toSquare (x : Z) : Z := sint sq_bits x.
Definition toBonaPiece (x : Z) : Z := sint bp_bits x.

(** *** KK *)

Definition KK_min_index : Z := 0.
Definition KK_max_index : Z :=
  u64 (KK_min_index + u64 (u64 SQ_NB * u64 SQ_NB)).

Definition KK_is_ok (index : Z) : bool :=
  (KK_min_index <=? index) && (index <? KK_max_index).

(** Release build: [ASSERT_LV3] expands to nothing. *)
Definition KK_fromIndex (index : Z) : KK :=
  let index := u64 (index - KK_min_index) in
  let king1 := toSquare (index mod u64 SQ_NB) in
  let index := index / u64 SQ_NB in
  let king0 := toSquare index in
  mkKK king0 king1.

(** The condition under [ASSERT_LV3] in [KK::fromIndex]. *)
Definition KK_fromIndex_assert (index : Z) : bool :=
  KK_king0 (KK_fromIndex index) <? SQ_NB.

Definition KK_toLowerDimensions (t : KK) : list KK :=
  [mkKK (KK_king0 t) (KK_king1 t)].

Definition KK_toIndex (t : KK) : Z :=
  u64 (u64 (KK_min_index + u64 (u64 (KK_king0 t) * u64 SQ_NB))
       + u64 (KK_king1 t)).

(** *** KKP *)

Definition KKP_min_index : Z := KK_max_index.
Definition KKP_max_index : Z :=
  u64 (KKP_min_index + u64 (u64 (u64 SQ_NB * u64 SQ_NB) * u64 fe_end)).

Definition KKP_is_ok (index : Z) : bool :=
  (KKP_min_index <=? index) && (index <? KKP_max_index).

Definition KKP_fromIndex (index : Z) : KKP :=
  let index := u64 (index - KKP_min_index) in
  let piece := toBonaPiece (index mod u64 fe_end) in
  let index := index / u64 fe_end in
  let king1 := toSquare (index mod u64 SQ_NB) in
  let index := index / u64 SQ_NB in
  let king0 := toSquare index in
  mkKKP king0 king1 piece.

Definition KKP_fromIndex_assert (index : Z) : bool :=
  KKP_king0 (KKP_fromIndex index) <? SQ_NB.

Definition KKP_toLowerDimensions (t : KKP) : list KKP :=
  [mkKKP (KKP_king0 t) (KKP_king1 t) (KKP_piece t);
   mkKKP (Mir (KKP_king0 t)) (Mir (KKP_king1 t)) (mir_piece (KKP_piece t))].

Definition KKP_toIndex (t : KKP) : Z :=
  u64 (u64 (KKP_min_index
            + u64 (u64 (u64 (u64 (KKP_king0 t) * u64 SQ_NB)
                        + u64 (KKP_king1 t))
                   * u64 fe_end))
       + u64 (KKP_piece t)).

(** *** KPP *)

Definition KPP_min_index : Z := KKP_max_index.
Definition KPP_max_index : Z :=
  u64 (KPP_min_index + u64 (u64 (u64 SQ_NB * u64 fe_end) * u64 fe_end)).

Definition KPP_is_ok (index : Z) : bool :=
  (KPP_min_index <=? index) && (index <? KPP_max_index).

Definition KPP_fromIndex (index : Z) : KPP :=
  let index := u64 (index - KPP_min_index) in
  let piece1 := toBonaPiece (index mod u64 fe_end) in
  let index := index / u64 fe_end in
  let piece0 := toBonaPiece (index mod u64 fe_end) in
  let index := index / u64 fe_end in
  let king := toSquare index in
  mkKPP king piece0 piece1.

Definition KPP_fromIndex_assert (index : Z) : bool :=
  KPP_king (KPP_fromIndex index) <? SQ_NB.

Definition KPP_toLowerDimensions (t : KPP) : list KPP :=
  [mkKPP (KPP_king t) (KPP_piece0 t) (KPP_piece1 t);
   mkKPP (KPP_king t) (KPP_piece1 t) (KPP_piece0 t);
   mkKPP (Mir (KPP_king t)) (mir_piece (KPP_piece0 t))
         (mir_piece (KPP_piece1 t));
   mkKPP (Mir (KPP_king t)) (mir_piece (KPP_piece1 t))
         (mir_piece (KPP_piece0 t))].

Definition KPP_toIndex (t : KPP) : Z :=
  u64 (u64 (KPP_min_index
            + u64 (u64 (u64 (u64 (KPP_king t) * u64 fe_end)
                        + u64 (KPP_piece0 t))
                   * u64 fe_end))
       + u64 (KPP_piece1 t)).

(** *** Tuples whose components are in range *)

Definition is_square (s : Z) : Prop := 0 <= s < SQ_NB.
Definition is_piece (p : Z) : Prop := 0 <= p < fe_end.

Definition KK_valid (t : KK) : Prop :=
  is_square (KK_king0 t) /\ is_square (KK_king1 t).
Definition KKP_valid (t : KKP) : Prop :=
  is_square (KKP_king0 t) /\ is_square (KKP_king1 t)
  /\ is_piece (KKP_piece t).
Definition KPP_valid (t : KPP) : Prop :=
  is_square (KPP_king t) /\ is_piece (KPP_piece0 t)
  /\ is_piece (KPP_piece1 t).

(** The two enumerators are positive values of their types, and the
    whole index space fits the 64-bit index. *)
Definition layout_fits : Prop :=
  0 < SQ_NB < 2 ^ (sq_bits - 1) /\
  0 < fe_end < 2 ^ (bp_bits - 1) /\
  SQ_NB * SQ_NB + SQ_NB * SQ_NB * fe_end + SQ_NB * fe_end * fe_end < 2 ^ 64.

(** *** Arithmetic of the encoding *)

Lemma u64_small (x : Z) : 0 <= x < 2 ^ 64 -> u64 x = x.
Proof. intros H. unfold u64. apply Z.mod_small. exact H. Qed.

Lemma sint_small (w x : Z) : 0 <= x < 2 ^ (w - 1) -> sint w x = x.
Proof.
  intros H. unfold sint.
  assert (Hw : 0 <= w - 1).
  { destruct (Z.le_gt_cases 0 (w - 1)) as [L | L]; [exact L|].
    rewrite Z.pow_neg_r in H by lia. lia. }
  assert (E : 2 ^ w = 2 * 2 ^ (w - 1)).
  { rewrite <- Z.pow_succ_r by exact Hw. f_equal. lia. }
  rewrite Z.mod_small by lia. lia.
Qed.

Lemma radix_div (q b r : Z) : 0 <= r < b -> (q * b + r) / b = q.
Proof. intros H. symmetry. apply Z.div_unique with r; lia. Qed.

Lemma radix_mod (q b r : Z) : 0 <= r < b -> (q * b + r) mod b = r.
Proof. intros H. symmetry. apply Z.mod_unique with q; lia. Qed.

Lemma radix_join (x b : Z) : 0 < b -> x / b * b + x mod b = x.
Proof. intros H. pose proof (Z.div_mod x b). lia. Qed.

Lemma div_bounds (x b : Z) : 0 <= x -> 0 < b -> 0 <= x / b <= x.
Proof.
  intros Hx Hb. split.
  - apply Z.div_pos; lia.
  - apply Z.div_le_upper_bound; nia.
Qed.

Section Fits.

Hypothesis Hfit : layout_fits.

Ltac fits := pose proof Hfit as (HS & HF & HT).

Lemma SQ_NB_u64 : u64 SQ_NB = SQ_NB.
Proof using Hfit. fits. apply u64_small. nia. Qed.

Lemma fe_end_u64 : u64 fe_end = fe_end.
Proof using Hfit. fits. apply u64_small. nia. Qed.

Lemma KK_max_index_eq : KK_max_index = SQ_NB * SQ_NB.
Proof using Hfit.
  fits. unfold KK_max_index, KK_min_index. rewrite SQ_NB_u64.
  rewrite (u64_small (SQ_NB * SQ_NB)) by nia.
  apply u64_small. nia.
Qed.

Lemma KKP_max_index_eq :
  KKP_max_index = SQ_NB * SQ_NB + SQ_NB * SQ_NB * fe_end.
Proof using Hfit.
  fits. unfold KKP_max_index, KKP_min_index. rewrite KK_max_index_eq.
  rewrite SQ_NB_u64, fe_end_u64.
  rewrite (u64_small (SQ_NB * SQ_NB)) by nia.
  rewrite (u64_small (SQ_NB * SQ_NB * fe_end)) by nia.
  apply u64_small. nia.
Qed.

Lemma KPP_max_index_eq :
  KPP_max_index =
  SQ_NB * SQ_NB + SQ_NB * SQ_NB * fe_end + SQ_NB * fe_end * fe_end.
Proof using Hfit.
  fits. unfold KPP_max_index, KPP_min_index. rewrite KKP_max_index_eq.
  rewrite SQ_NB_u64, fe_end_u64.
  rewrite (u64_small (SQ_NB * fe_end)) by nia.
  rewrite (u64_small (SQ_NB * fe_end * fe_end)) by nia.
  apply u64_small. nia.
Qed.

(** *** Decoding then encoding

    The king component is the last quotient and is stored as it is:
    the round trip needs no more of it than to fit [Square]. *)

Lemma KK_decode_encode (i : Z) :
  KK_min_index <= i < 2 ^ 64 ->
  (i - KK_min_index) / SQ_NB < 2 ^ (sq_bits - 1) ->
  KK_toIndex (KK_fromIndex i) = i.
Proof using Hfit.
  fits. unfold KK_toIndex, KK_fromIndex, toSquare, KK_min_index.
  intros Hi Hk. cbn [KK_king0 KK_king1]. rewrite SQ_NB_u64.
  rewrite (u64_small (i - 0)) by lia.
  remember (i - 0) as x eqn:Ex.
  pose proof (Z.mod_pos_bound x SQ_NB (proj1 HS)) as Hr.
  pose proof (div_bounds x SQ_NB ltac:(lia) (proj1 HS)) as Hq.
  pose proof (radix_join x SQ_NB (proj1 HS)) as J.
  rewrite (sint_small _ (x mod SQ_NB)) by lia.
  rewrite (sint_small _ (x / SQ_NB)) by lia.
  remember (x / SQ_NB) as q. remember (x mod SQ_NB) as r.
  rewrite (u64_small q) by lia.
  rewrite (u64_small r) by lia.
  assert (0 <= q * SQ_NB) by nia.
  rewrite (u64_small (q * SQ_NB)) by lia.
  rewrite (u64_small (0 + q * SQ_NB)) by lia.
  rewrite u64_small by lia. lia.
Qed.

Lemma KKP_decode_encode (i : Z) :
  KKP_min_index <= i < 2 ^ 64 ->
  (i - KKP_min_index) / fe_end / SQ_NB < 2 ^ (sq_bits - 1) ->
  KKP_toIndex (KKP_fromIndex i) = i.
Proof using Hfit.
  fits. unfold KKP_toIndex, KKP_fromIndex, toSquare, toBonaPiece.
  intros Hi Hk. cbn [KKP_king0 KKP_king1 KKP_piece].
  rewrite SQ_NB_u64, fe_end_u64.
  assert (Hm : 0 <= KKP_min_index).
  { unfold KKP_min_index. rewrite KK_max_index_eq. nia. }
  remember KKP_min_index as lo eqn:Elo.
  rewrite (u64_small (i - lo)) by lia.
  remember (i - lo) as x eqn:Ex.
  pose proof (Z.mod_pos_bound x fe_end (proj1 HF)) as Hp.
  pose proof (div_bounds x fe_end ltac:(lia) (proj1 HF)) as Hy.
  pose proof (radix_join x fe_end (proj1 HF)) as Jx.
  remember (x / fe_end) as y. remember (x mod fe_end) as p.
  pose proof (Z.mod_pos_bound y SQ_NB (proj1 HS)) as Hr.
  pose proof (div_bounds y SQ_NB ltac:(lia) (proj1 HS)) as Hq.
  pose proof (radix_join y SQ_NB (proj1 HS)) as Jy.
  remember (y / SQ_NB) as q. remember (y mod SQ_NB) as r.
  rewrite (sint_small _ p) by lia.
  rewrite (sint_small _ r) by lia.
  rewrite (sint_small _ q) by lia.
  rewrite (u64_small q), (u64_small r), (u64_small p) by lia.
  assert (0 <= q * SQ_NB) by nia.
  rewrite (u64_small (q * SQ_NB)) by lia.
  rewrite (u64_small (q * SQ_NB + r)) by lia.
  rewrite Jy.
  assert (0 <= y * fe_end) by nia.
  rewrite (u64_small (y * fe_end)) by lia.
  rewrite (u64_small (lo + y * fe_end)) by lia.
  rewrite u64_small by lia. lia.
Qed.

Lemma KPP_decode_encode (i : Z) :
  KPP_min_index <= i < 2 ^ 64 ->
  (i - KPP_min_index) / fe_end / fe_end < 2 ^ (sq_bits - 1) ->
  KPP_toIndex (KPP_fromIndex i) = i.
Proof using Hfit.
  fits. unfold KPP_toIndex, KPP_fromIndex, toSquare, toBonaPiece.
  intros Hi Hk. cbn [KPP_king KPP_piece0 KPP_piece1].
  rewrite fe_end_u64.
  assert (Hm : 0 <= KPP_min_index).
  { unfold KPP_min_index. rewrite KKP_max_index_eq. nia. }
  remember KPP_min_index as lo eqn:Elo.
  rewrite (u64_small (i - lo)) by lia.
  remember (i - lo) as x eqn:Ex.
  pose proof (Z.mod_pos_bound x fe_end (proj1 HF)) as Hp.
  pose proof (div_bounds x fe_end ltac:(lia) (proj1 HF)) as Hy.
  pose proof (radix_join x fe_end (proj1 HF)) as Jx.
  remember (x / fe_end) as y. remember (x mod fe_end) as p1.
  pose proof (Z.mod_pos_bound y fe_end (proj1 HF)) as Hr.
  pose proof (div_bounds y fe_end ltac:(lia) (proj1 HF)) as Hq.
  pose proof (radix_join y fe_end (proj1 HF)) as Jy.
  remember (y / fe_end) as q. remember (y mod fe_end) as p0.
  rewrite (sint_small _ p1) by lia.
  rewrite (sint_small _ p0) by lia.
  rewrite (sint_small _ q) by lia.
  rewrite (u64_small q), (u64_small p0), (u64_small p1) by lia.
  assert (0 <= q * fe_end) by nia.
  rewrite (u64_small (q * fe_end)) by lia.
  rewrite (u64_small (q * fe_end + p0)) by lia.
  rewrite Jy.
  assert (0 <= y * fe_end) by nia.
  rewrite (u64_small (y * fe_end)) by lia.
  rewrite (u64_small (lo + y * fe_end)) by lia.
  rewrite u64_small by lia. lia.
Qed.

(** *** Encoding a tuple in range *)

Lemma KK_toIndex_eq (t : KK) :
  KK_valid t -> KK_toIndex t = KK_king0 t * SQ_NB + KK_king1 t.
Proof using Hfit.
  fits. destruct t as [k0 k1]. unfold KK_valid, is_square, KK_toIndex.
  cbn [KK_king0 KK_king1]. intros [H0 H1].
  rewrite SQ_NB_u64. unfold KK_min_index.
  rewrite (u64_small k0), (u64_small k1) by nia.
  assert (0 <= k0 * SQ_NB /\ k0 * SQ_NB + k1 < SQ_NB * SQ_NB) by nia.
  rewrite (u64_small (k0 * SQ_NB)) by nia.
  rewrite (u64_small (0 + k0 * SQ_NB)) by nia.
  apply u64_small. nia.
Qed.

Lemma KKP_toIndex_eq (t : KKP) :
  KKP_valid t ->
  KKP_toIndex t =
  KKP_min_index + (KKP_king0 t * SQ_NB + KKP_king1 t) * fe_end + KKP_piece t.
Proof using Hfit.
  fits. destruct t as [k0 k1 p].
  unfold KKP_valid, is_square, is_piece, KKP_toIndex.
  cbn [KKP_king0 KKP_king1 KKP_piece]. intros (H0 & H1 & H2).
  rewrite SQ_NB_u64, fe_end_u64.
  unfold KKP_min_index. rewrite KK_max_index_eq.
  rewrite (u64_small k0), (u64_small k1), (u64_small p) by nia.
  assert (B1 : 0 <= k0 * SQ_NB /\ k0 * SQ_NB + k1 < SQ_NB * SQ_NB) by nia.
  remember (k0 * SQ_NB + k1) as y eqn:Ey.
  assert (B2 : 0 <= y * fe_end /\ y * fe_end + p < SQ_NB * SQ_NB * fe_end)
    by nia.
  rewrite (u64_small (k0 * SQ_NB)) by nia.
  rewrite <- Ey. rewrite (u64_small y) by nia.
  rewrite (u64_small (y * fe_end)) by nia.
  rewrite (u64_small (SQ_NB * SQ_NB + y * fe_end)) by nia.
  apply u64_small. nia.
Qed.

Lemma KPP_toIndex_eq (t : KPP) :
  KPP_valid t ->
  KPP_toIndex t =
  KPP_min_index + (KPP_king t * fe_end + KPP_piece0 t) * fe_end
  + KPP_piece1 t.
Proof using Hfit.
  fits. destruct t as [k p0 p1].
  unfold KPP_valid, is_square, is_piece, KPP_toIndex.
  cbn [KPP_king KPP_piece0 KPP_piece1]. intros (H0 & H1 & H2).
  rewrite fe_end_u64.
  unfold KPP_min_index. rewrite KKP_max_index_eq.
  rewrite (u64_small k), (u64_small p0), (u64_small p1) by nia.
  assert (B1 : 0 <= k * fe_end /\ k * fe_end + p0 < SQ_NB * fe_end) by nia.
  remember (k * fe_end + p0) as y eqn:Ey.
  assert (B2 : 0 <= y * fe_end /\ y * fe_end + p1 < SQ_NB * fe_end * fe_end)
    by nia.
  rewrite (u64_small (k * fe_end)) by nia.
  rewrite <- Ey. rewrite (u64_small y) by nia.
  rewrite (u64_small (y * fe_end)) by nia.
  remember (SQ_NB * SQ_NB + SQ_NB * SQ_NB * fe_end) as lo eqn:Elo.
  assert (0 <= lo) by nia.
  rewrite (u64_small (lo + y * fe_end)) by nia.
  apply u64_small. nia.
Qed.

(** Every encoded tuple lies in the range of its family. *)

Lemma KK_toIndex_is_ok (t : KK) :
  KK_valid t -> KK_is_ok (KK_toIndex t) = true.
Proof using Hfit.
  fits. intros Hv. rewrite (KK_toIndex_eq t Hv).
  destruct t as [k0 k1]. destruct Hv as [H0 H1].
  unfold is_square in *. cbn [KK_king0 KK_king1] in *.
  unfold KK_is_ok. rewrite KK_max_index_eq. unfold KK_min_index.
  apply andb_true_intro. split; [apply Z.leb_le | apply Z.ltb_lt]; nia.
Qed.

Lemma KKP_toIndex_is_ok (t : KKP) :
  KKP_valid t -> KKP_is_ok (KKP_toIndex t) = true.
Proof using Hfit.
  fits. intros Hv. rewrite (KKP_toIndex_eq t Hv).
  destruct t as [k0 k1 p]. destruct Hv as (H0 & H1 & H2).
  unfold is_square, is_piece in *.
  cbn [KKP_king0 KKP_king1 KKP_piece] in *.
  unfold KKP_is_ok. rewrite KKP_max_index_eq.
  unfold KKP_min_index. rewrite KK_max_index_eq.
  assert (B1 : 0 <= k0 * SQ_NB /\ k0 * SQ_NB + k1 < SQ_NB * SQ_NB) by nia.
  remember (k0 * SQ_NB + k1) as y eqn:Ey.
  apply andb_true_intro. split; [apply Z.leb_le | apply Z.ltb_lt]; nia.
Qed.

Lemma KPP_toIndex_is_ok (t : KPP) :
  KPP_valid t -> KPP_is_ok (KPP_toIndex t) = true.
Proof using Hfit.
  fits. intros Hv. rewrite (KPP_toIndex_eq t Hv).
  destruct t as [k p0 p1]. destruct Hv as (H0 & H1 & H2).
  unfold is_square, is_piece in *.
  cbn [KPP_king KPP_piece0 KPP_piece1] in *.
  unfold KPP_is_ok. rewrite KPP_max_index_eq.
  unfold KPP_min_index. rewrite KKP_max_index_eq.
  assert (B1 : 0 <= k * fe_end /\ k * fe_end + p0 < SQ_NB * fe_end) by nia.
  remember (k * fe_end + p0) as y eqn:Ey.
  apply andb_true_intro. split; [apply Z.leb_le | apply Z.ltb_lt]; nia.
Qed.

(** *** Encoding then decoding *)

Lemma KK_encode_decode (t : KK) :
  KK_valid t -> KK_fromIndex (KK_toIndex t) = t.
Proof using Hfit.
  fits. intros Hv. rewrite (KK_toIndex_eq t Hv).
  destruct t as [k0 k1]. destruct Hv as [H0 H1].
  unfold is_square in *. cbn [KK_king0 KK_king1] in *.
  unfold KK_fromIndex, toSquare, KK_min_index. rewrite SQ_NB_u64.
  rewrite Z.sub_0_r.
  assert (B1 : 0 <= k0 * SQ_NB /\ k0 * SQ_NB + k1 < SQ_NB * SQ_NB) by nia.
  rewrite (u64_small (k0 * SQ_NB + k1)) by nia.
  rewrite radix_mod, radix_div by lia.
  rewrite !sint_small by lia. reflexivity.
Qed.

Lemma KKP_encode_decode (t : KKP) :
  KKP_valid t -> KKP_fromIndex (KKP_toIndex t) = t.
Proof using Hfit.
  fits. intros Hv. rewrite (KKP_toIndex_eq t Hv).
  destruct t as [k0 k1 p]. destruct Hv as (H0 & H1 & H2).
  unfold is_square, is_piece in *.
  cbn [KKP_king0 KKP_king1 KKP_piece] in *.
  unfold KKP_fromIndex, toSquare, toBonaPiece.
  rewrite SQ_NB_u64, fe_end_u64.
  remember KKP_min_index as lo.
  replace (lo + (k0 * SQ_NB + k1) * fe_end + p - lo)
    with ((k0 * SQ_NB + k1) * fe_end + p) by lia.
  assert (B1 : 0 <= k0 * SQ_NB /\ k0 * SQ_NB + k1 < SQ_NB * SQ_NB) by nia.
  assert (B2 : 0 <= (k0 * SQ_NB + k1) * fe_end /\
               (k0 * SQ_NB + k1) * fe_end + p < SQ_NB * SQ_NB * fe_end)
    by nia.
  rewrite (u64_small ((k0 * SQ_NB + k1) * fe_end + p)) by nia.
  rewrite (radix_mod _ fe_end p), (radix_div _ fe_end p) by lia.
  rewrite radix_mod, radix_div by lia.
  rewrite !sint_small by lia. reflexivity.
Qed.

Lemma KPP_encode_decode (t : KPP) :
  KPP_valid t -> KPP_fromIndex (KPP_toIndex t) = t.
Proof using Hfit.
  fits. intros Hv. rewrite (KPP_toIndex_eq t Hv).
  destruct t as [k p0 p1]. destruct Hv as (H0 & H1 & H2).
  unfold is_square, is_piece in *.
  cbn [KPP_king KPP_piece0 KPP_piece1] in *.
  unfold KPP_fromIndex, toSquare, toBonaPiece.
  rewrite fe_end_u64.
  remember KPP_min_index as lo.
  replace (lo + (k * fe_end + p0) * fe_end + p1 - lo)
    with ((k * fe_end + p0) * fe_end + p1) by lia.
  assert (B1 : 0 <= k * fe_end /\ k * fe_end + p0 < SQ_NB * fe_end) by nia.
  assert (B2 : 0 <= (k * fe_end + p0) * fe_end /\
               (k * fe_end + p0) * fe_end + p1 < SQ_NB * fe_end * fe_end)
    by nia.
  rewrite (u64_small ((k * fe_end + p0) * fe_end + p1)) by nia.
  rewrite (radix_mod _ fe_end p1), (radix_div _ fe_end p1) by lia.
  rewrite radix_mod, radix_div by lia.
  rewrite !sint_small by lia. reflexivity.
Qed.

(** *** The ranges *)

Lemma is_ok_spec :
  forall i,
    (KK_is_ok i = true <-> 0 <= i < SQ_NB * SQ_NB) /\
    (KKP_is_ok i = true <->
     SQ_NB * SQ_NB <= i < SQ_NB * SQ_NB + SQ_NB * SQ_NB * fe_end) /\
    (KPP_is_ok i = true <->
     SQ_NB * SQ_NB + SQ_NB * SQ_NB * fe_end <= i <
     SQ_NB * SQ_NB + SQ_NB * SQ_NB * fe_end + SQ_NB * fe_end * fe_end).
Proof using Hfit.
  intros i. unfold KK_is_ok, KKP_is_ok, KPP_is_ok.
  unfold KPP_min_index, KKP_min_index.
  rewrite KPP_max_index_eq, KKP_max_index_eq, KK_max_index_eq.
  unfold KK_min_index.
  rewrite !andb_true_iff, !Z.leb_le, !Z.ltb_lt.
  split; [reflexivity | split; reflexivity].
Qed.

Lemma is_ok_exclusive :
  forall i,
    (KK_is_ok i = true -> KKP_is_ok i = false /\ KPP_is_ok i = false) /\
    (KKP_is_ok i = true -> KK_is_ok i = false /\ KPP_is_ok i = false) /\
    (KPP_is_ok i = true -> KK_is_ok i = false /\ KKP_is_ok i = false).
Proof using Hfit.
  fits. intros i. destruct (is_ok_spec i) as (A & B & C).
  assert (0 <= SQ_NB * SQ_NB * fe_end) by nia.
  destruct (KK_is_ok i) eqn:E1, (KKP_is_ok i) eqn:E2,
           (KPP_is_ok i) eqn:E3;
    repeat split; intros; try reflexivity; try discriminate;
    exfalso;
    repeat match goal with
           | H : true = true <-> _ |- _ =>
               apply proj1 in H; specialize (H eq_refl)
           | H : false = true <-> _ |- _ => clear H
           end; lia.
Qed.

(** *** Properties of the layout *)

(** C1: in each family, encoding a tuple whose components are in
    range and decoding the index gives the tuple back, and decoding
    an index of the family's range and encoding the tuple gives the
    index back. *)
Theorem index_round_trip :
  (forall t, KK_valid t -> KK_fromIndex (KK_toIndex t) = t) /\
  (forall t, KKP_valid t -> KKP_fromIndex (KKP_toIndex t) = t) /\
  (forall t, KPP_valid t -> KPP_fromIndex (KPP_toIndex t) = t) /\
  (forall i, KK_is_ok i = true -> KK_toIndex (KK_fromIndex i) = i) /\
  (forall i, KKP_is_ok i = true -> KKP_toIndex (KKP_fromIndex i) = i) /\
  (forall i, KPP_is_ok i = true -> KPP_toIndex (KPP_fromIndex i) = i).
Proof using Hfit.
  fits.
  split; [exact KK_encode_decode|].
  split; [exact KKP_encode_decode|].
  split; [exact KPP_encode_decode|].
  assert (0 <= SQ_NB * SQ_NB * fe_end) by nia.
  assert (0 <= SQ_NB * fe_end * fe_end) by nia.
  repeat split; intros i Hi; destruct (is_ok_spec i) as (A & B & C).
  - apply A in Hi. apply KK_decode_encode.
    + unfold KK_min_index. nia.
    + unfold KK_min_index. rewrite Z.sub_0_r.
      apply Z.lt_trans with SQ_NB; [|lia].
      apply Z.div_lt_upper_bound; nia.
  - apply B in Hi. apply KKP_decode_encode.
    + unfold KKP_min_index. rewrite KK_max_index_eq. nia.
    + unfold KKP_min_index. rewrite KK_max_index_eq.
      apply Z.lt_trans with SQ_NB; [|lia].
      apply Z.div_lt_upper_bound; [lia|].
      apply Z.div_lt_upper_bound; nia.
  - apply C in Hi. apply KPP_decode_encode.
    + unfold KPP_min_index. rewrite KKP_max_index_eq. nia.
    + unfold KPP_min_index. rewrite KKP_max_index_eq.
      apply Z.lt_trans with SQ_NB; [|lia].
      apply Z.div_lt_upper_bound; [lia|].
      apply Z.div_lt_upper_bound; nia.
Qed.

(** C2: the three ranges chain: KK starts at 0, KKP starts where KK
    ends, KPP starts where KKP ends; their extents are [SQ_NB^2],
    [SQ_NB^2 * fe_end] and [SQ_NB * fe_end^2]; no index is in two
    ranges, and the indices below [KPP::max_index()] are those in
    one of the three. *)
Theorem index_ranges_chain :
  KK_min_index = 0 /\
  KKP_min_index = KK_max_index /\
  KPP_min_index = KKP_max_index /\
  KK_max_index - KK_min_index = SQ_NB * SQ_NB /\
  KKP_max_index - KKP_min_index = SQ_NB * SQ_NB * fe_end /\
  KPP_max_index - KPP_min_index = SQ_NB * fe_end * fe_end /\
  (forall i, KK_is_ok i && KKP_is_ok i = false /\
             KK_is_ok i && KPP_is_ok i = false /\
             KKP_is_ok i && KPP_is_ok i = false) /\
  (forall i, 0 <= i < KPP_max_index <->
             KK_is_ok i || KKP_is_ok i || KPP_is_ok i = true).
Proof using Hfit.
  fits.
  split; [reflexivity|]. split; [reflexivity|]. split; [reflexivity|].
  split; [rewrite KK_max_index_eq; unfold KK_min_index; lia|].
  split; [rewrite KKP_max_index_eq; unfold KKP_min_index;
          rewrite KK_max_index_eq; lia|].
  split; [rewrite KPP_max_index_eq; unfold KPP_min_index;
          rewrite KKP_max_index_eq; lia|].
  split.
  - intros i. destruct (is_ok_exclusive i) as (A & B & C).
    destruct (KK_is_ok i), (KKP_is_ok i), (KPP_is_ok i); cbn;
      repeat split; try reflexivity;
      try (destruct (A eq_refl); discriminate);
      try (destruct (B eq_refl); discriminate);
      try (destruct (C eq_refl); discriminate).
  - intros i. destruct (is_ok_spec i) as (A & B & C).
    rewrite KPP_max_index_eq, !orb_true_iff, A, B, C.
    assert (0 <= SQ_NB * SQ_NB * fe_end) by nia.
    assert (0 <= SQ_NB * fe_end * fe_end) by nia.
    nia.
Qed.

(** C3, amended: index 0 begins the KK range, the KKP range begins
    [SQ_NB^2] indices later, and the KPP range begins
    [SQ_NB^2 * fe_end] indices after the start of the KKP range. *)
Theorem index_range_offsets :
  KK_min_index = 0 /\
  KKP_min_index = SQ_NB * SQ_NB /\
  KPP_min_index = SQ_NB * SQ_NB + SQ_NB * SQ_NB * fe_end /\
  KPP_min_index - KKP_min_index = SQ_NB * SQ_NB * fe_end.
Proof using Hfit.
  unfold KPP_min_index, KKP_min_index.
  rewrite KKP_max_index_eq, KK_max_index_eq.
  repeat split; lia.
Qed.

(** C7: when [Mir] keeps squares in range and [mir_piece] keeps
    piece codes in range, every element that [toLowerDimensions]
    gives for a tuple in range encodes to an index of the same
    family's range, and of no other family's. *)
Theorem folding_stays_in_family :
  (forall s, is_square s -> is_square (Mir s)) ->
  (forall p, is_piece p -> is_piece (mir_piece p)) ->
  (forall t, KK_valid t ->
     Forall (fun u => KK_is_ok (KK_toIndex u) = true /\
                      KKP_is_ok (KK_toIndex u) = false /\
                      KPP_is_ok (KK_toIndex u) = false)
            (KK_toLowerDimensions t)) /\
  (forall t, KKP_valid t ->
     Forall (fun u => KKP_is_ok (KKP_toIndex u) = true /\
                      KK_is_ok (KKP_toIndex u) = false /\
                      KPP_is_ok (KKP_toIndex u) = false)
            (KKP_toLowerDimensions t)) /\
  (forall t, KPP_valid t ->
     Forall (fun u => KPP_is_ok (KPP_toIndex u) = true /\
                      KK_is_ok (KPP_toIndex u) = false /\
                      KKP_is_ok (KPP_toIndex u) = false)
            (KPP_toLowerDimensions t)).
Proof using Hfit.
  intros HM HP.
  assert (KKok : forall u, KK_valid u ->
            KK_is_ok (KK_toIndex u) = true /\
            KKP_is_ok (KK_toIndex u) = false /\
            KPP_is_ok (KK_toIndex u) = false).
  { intros u Hu. pose proof (KK_toIndex_is_ok u Hu) as E.
    split; [exact E|].
    exact (proj1 (is_ok_exclusive (KK_toIndex u)) E). }
  assert (KKPok : forall u, KKP_valid u ->
            KKP_is_ok (KKP_toIndex u) = true /\
            KK_is_ok (KKP_toIndex u) = false /\
            KPP_is_ok (KKP_toIndex u) = false).
  { intros u Hu. pose proof (KKP_toIndex_is_ok u Hu) as E.
    split; [exact E|].
    exact (proj1 (proj2 (is_ok_exclusive (KKP_toIndex u))) E). }
  assert (KPPok : forall u, KPP_valid u ->
            KPP_is_ok (KPP_toIndex u) = true /\
            KK_is_ok (KPP_toIndex u) = false /\
            KKP_is_ok (KPP_toIndex u) = false).
  { intros u Hu. pose proof (KPP_toIndex_is_ok u Hu) as E.
    split; [exact E|].
    exact (proj2 (proj2 (is_ok_exclusive (KPP_toIndex u))) E). }
  split; [|split].
  - intros [k0 k1] [H0 H1]. cbn in H0, H1.
    unfold KK_toLowerDimensions. cbn [KK_king0 KK_king1].
    repeat (apply Forall_cons; [apply KKok; split; assumption|]).
    apply Forall_nil.
  - intros [k0 k1 p] (H0 & H1 & H2). cbn in H0, H1, H2.
    unfold KKP_toLowerDimensions. cbn [KKP_king0 KKP_king1 KKP_piece].
    repeat (apply Forall_cons; [apply KKPok; split; [|split]; cbn; auto|]).
    apply Forall_nil.
  - intros [k p0 p1] (H0 & H1 & H2). cbn in H0, H1, H2.
    unfold KPP_toLowerDimensions. cbn [KPP_king KPP_piece0 KPP_piece1].
    repeat (apply Forall_cons; [apply KPPok; split; [|split]; cbn; auto|]).
    apply Forall_nil.
Qed.

(** C9, amended: in each family, decoding an index [i] at or above
    [min_index()] and encoding the result gives [i] back as long as
    the king quotient fits [Square]; this reaches beyond
    [max_index()], where the decoded king is [SQ_NB] or more. *)
Theorem decode_encode_beyond_range :
  (forall i, KK_min_index <= i < 2 ^ 64 ->
             (i - KK_min_index) / SQ_NB < 2 ^ (sq_bits - 1) ->
             KK_toIndex (KK_fromIndex i) = i) /\
  (forall i, KKP_min_index <= i < 2 ^ 64 ->
             (i - KKP_min_index) / fe_end / SQ_NB < 2 ^ (sq_bits - 1) ->
             KKP_toIndex (KKP_fromIndex i) = i) /\
  (forall i, KPP_min_index <= i < 2 ^ 64 ->
             (i - KPP_min_index) / fe_end / fe_end < 2 ^ (sq_bits - 1) ->
             KPP_toIndex (KPP_fromIndex i) = i) /\
  (KK_king0 (KK_fromIndex KK_max_index) = SQ_NB /\
   KK_fromIndex_assert KK_max_index = false /\
   KK_toIndex (KK_fromIndex KK_max_index) = KK_max_index) /\
  (KKP_king0 (KKP_fromIndex KKP_max_index) = SQ_NB /\
   KKP_fromIndex_assert KKP_max_index = false /\
   KKP_toIndex (KKP_fromIndex KKP_max_index) = KKP_max_index) /\
  (KPP_king (KPP_fromIndex KPP_max_index) = SQ_NB /\
   KPP_fromIndex_assert KPP_max_index = false /\
   KPP_toIndex (KPP_fromIndex KPP_max_index) = KPP_max_index).
Proof using Hfit.
  fits.
  split; [exact KK_decode_encode|].
  split; [exact KKP_decode_encode|].
  split; [exact KPP_decode_encode|].
  assert (P1 : 0 <= SQ_NB * SQ_NB * fe_end) by nia.
  assert (P2 : 0 <= SQ_NB * fe_end * fe_end) by nia.
  assert (K1 : KK_king0 (KK_fromIndex KK_max_index) = SQ_NB).
  { unfold KK_fromIndex, toSquare. cbn [KK_king0].
    rewrite KK_max_index_eq, SQ_NB_u64. unfold KK_min_index.
    rewrite Z.sub_0_r, u64_small by nia.
    rewrite Z.div_mul by lia. apply sint_small. lia. }
  assert (K2 : KKP_king0 (KKP_fromIndex KKP_max_index) = SQ_NB).
  { unfold KKP_fromIndex, toSquare. cbn [KKP_king0].
    rewrite KKP_max_index_eq, SQ_NB_u64, fe_end_u64.
    unfold KKP_min_index. rewrite KK_max_index_eq.
    replace (SQ_NB * SQ_NB + SQ_NB * SQ_NB * fe_end - SQ_NB * SQ_NB)
      with (SQ_NB * SQ_NB * fe_end) by lia.
    rewrite u64_small by nia.
    rewrite Z.div_mul by lia. rewrite Z.div_mul by lia.
    apply sint_small. lia. }
  assert (K3 : KPP_king (KPP_fromIndex KPP_max_index) = SQ_NB).
  { unfold KPP_fromIndex, toSquare. cbn [KPP_king].
    rewrite KPP_max_index_eq, fe_end_u64.
    unfold KPP_min_index. rewrite KKP_max_index_eq.
    replace (SQ_NB * SQ_NB + SQ_NB * SQ_NB * fe_end
             + SQ_NB * fe_end * fe_end
             - (SQ_NB * SQ_NB + SQ_NB * SQ_NB * fe_end))
      with (SQ_NB * fe_end * fe_end) by lia.
    rewrite u64_small by nia.
    rewrite Z.div_mul by lia. rewrite Z.div_mul by lia.
    apply sint_small. lia. }
  split; [|split].
  - split; [exact K1|]. split.
    + unfold KK_fromIndex_assert. rewrite K1. apply Z.ltb_irrefl.
    + apply KK_decode_encode.
      * rewrite KK_max_index_eq. unfold KK_min_index. nia.
      * rewrite KK_max_index_eq. unfold KK_min_index.
        rewrite Z.sub_0_r, Z.div_mul by lia. lia.
  - split; [exact K2|]. split.
    + unfold KKP_fromIndex_assert. rewrite K2. apply Z.ltb_irrefl.
    + apply KKP_decode_encode.
      * rewrite KKP_max_index_eq. unfold KKP_min_index.
        rewrite KK_max_index_eq. nia.
      * rewrite KKP_max_index_eq. unfold KKP_min_index.
        rewrite KK_max_index_eq.
        replace (SQ_NB * SQ_NB + SQ_NB * SQ_NB * fe_end - SQ_NB * SQ_NB)
          with (SQ_NB * SQ_NB * fe_end) by lia.
        rewrite Z.div_mul by lia. rewrite Z.div_mul by lia. lia.
  - split; [exact K3|]. split.
    + unfold KPP_fromIndex_assert. rewrite K3. apply Z.ltb_irrefl.
    + apply KPP_decode_encode.
      * rewrite KPP_max_index_eq. unfold KPP_min_index.
        rewrite KKP_max_index_eq. nia.
      * rewrite KPP_max_index_eq. unfold KPP_min_index.
        rewrite KKP_max_index_eq.
        replace (SQ_NB * SQ_NB + SQ_NB * SQ_NB * fe_end
                 + SQ_NB * fe_end * fe_end
                 - (SQ_NB * SQ_NB + SQ_NB * SQ_NB * fe_end))
          with (SQ_NB * fe_end * fe_end) by lia.
        rewrite Z.div_mul by lia. rewrite Z.div_mul by lia. lia.
Qed.

(** C10: the KPP encoding keeps the order of the two pieces: for a
    king square and two different piece codes in range, the two
    orders have different indices, both in the KPP range; the
    swapped tuple is the second element of [toLowerDimensions]. *)
Theorem KPP_piece_order_kept :
  forall k p0 p1,
    is_square k -> is_piece p0 -> is_piece p1 -> p0 <> p1 ->
    KPP_toIndex (mkKPP k p0 p1) <> KPP_toIndex (mkKPP k p1 p0) /\
    KPP_is_ok (KPP_toIndex (mkKPP k p0 p1)) = true /\
    KPP_is_ok (KPP_toIndex (mkKPP k p1 p0)) = true /\
    nth_error (KPP_toLowerDimensions (mkKPP k p0 p1)) 1
    = Some (mkKPP k p1 p0).
Proof using Hfit.
  intros k p0 p1 Hk H0 H1 Hne.
  assert (V01 : KPP_valid (mkKPP k p0 p1)) by (split; [|split]; assumption).
  assert (V10 : KPP_valid (mkKPP k p1 p0)) by (split; [|split]; assumption).
  split; [|split; [|split]].
  - intros E. apply (f_equal KPP_fromIndex) in E.
    rewrite !KPP_encode_decode in E by assumption.
    injection E as E1 E2. contradiction.
  - apply KPP_toIndex_is_ok, V01.
  - apply KPP_toIndex_is_ok, V10.
  - reflexivity.
Qed.

End Fits.

(** C6: [toLowerDimensions] gives, in this order, for KK the tuple
    itself; for KKP the tuple and its mirror; for KPP the tuple, the
    tuple with its pieces swapped, the mirror, and the mirror with its
    pieces swapped.  So for KPP(5, 10, 20) it gives (5, 20, 10) and the
    two mirrored tuples. *)
Theorem toLowerDimensions_classes :
  (forall k0 k1, KK_toLowerDimensions (mkKK k0 k1) = [mkKK k0 k1]) /\
  (forall k0 k1 p,
     KKP_toLowerDimensions (mkKKP k0 k1 p) =
     [mkKKP k0 k1 p; mkKKP (Mir k0) (Mir k1) (mir_piece p)]) /\
  (forall k p0 p1,
     KPP_toLowerDimensions (mkKPP k p0 p1) =
     [mkKPP k p0 p1; mkKPP k p1 p0;
      mkKPP (Mir k) (mir_piece p0) (mir_piece p1);
      mkKPP (Mir k) (mir_piece p1) (mir_piece p0)]) /\
  (forall t, length (KK_toLowerDimensions t) = 1%nat /\
             In t (KK_toLowerDimensions t)) /\
  (forall t, length (KKP_toLowerDimensions t) = 2%nat /\
             In t (KKP_toLowerDimensions t)) /\
  (forall t, length (KPP_toLowerDimensions t) = 4%nat /\
             In t (KPP_toLowerDimensions t)) /\
  (let l := KPP_toLowerDimensions (mkKPP 5 10 20) in
   In (mkKPP 5 20 10) l /\
   In (mkKPP (Mir 5) (mir_piece 10) (mir_piece 20)) l /\
   In (mkKPP (Mir 5) (mir_piece 20) (mir_piece 10)) l).
Proof.
  repeat split; try reflexivity.
  - destruct t. left. reflexivity.
  - destruct t. left. reflexivity.
  - destruct t. left. reflexivity.
  - right. left. reflexivity.
  - right. right. left. reflexivity.
  - right. right. right. left. reflexivity.
Qed.

End FeatureIndex.


(** ** The layout at the sizes of the 9x9 board

    [SQ_NB = 81], [fe_end = 1548], both enumerations over [int32_t]. *)

Lemma layout_fits_shogi : layout_fits 81 1548 32 32.
Proof. unfold layout_fits. repeat split; reflexivity. Defined.

Lemma mirror_file9_square (s : Z) :
  is_square 81 s -> is_square 81 (mirror_file9 s).
Proof.
  unfold is_square, mirror_file9. intros H.
  pose proof (Z.mod_pos_bound s 9 ltac:(lia)).
  pose proof (Z.div_mod s 9 ltac:(lia)).
  lia.
Defined.

Lemma reverse_codes_piece (n p : Z) :
  is_piece n p -> is_piece n (reverse_codes n p).
Proof. unfold is_piece, reverse_codes. lia. Defined.

Lemma index_round_trip_witness :
  layout_fits 81 1548 32 32 /\
  KPP_valid 81 1548 (mkKPP 5 10 20) /\
  KPP_fromIndex 81 1548 32 32 (KPP_toIndex 81 1548 (mkKPP 5 10 20))
  = mkKPP 5 10 20 /\
  KKP_is_ok 81 1548 1000000 = true /\
  KKP_toIndex 81 1548 (KKP_fromIndex 81 1548 32 32 1000000) = 1000000.
Proof.
  destruct (index_round_trip 81 1548 32 32 layout_fits_shogi)
    as (_ & _ & A & _ & B & _).
  assert (V : KPP_valid 81 1548 (mkKPP 5 10 20)).
  { unfold KPP_valid, is_square, is_piece. cbn. lia. }
  split; [exact layout_fits_shogi|].
  split; [exact V|].
  split; [exact (A _ V)|].
  split; [reflexivity|].
  apply B. reflexivity.
Defined.

Lemma index_ranges_chain_witness :
  layout_fits 81 1548 32 32 /\
  KK_max_index 81 = 81 * 81 /\
  KKP_min_index 81 = 81 * 81 /\
  KKP_max_index 81 1548 = KKP_min_index 81 + 81 * 81 * 1548.
Proof.
  destruct (index_ranges_chain 81 1548 32 32 layout_fits_shogi)
    as (A & B & _ & C & D & _).
  split; [exact layout_fits_shogi|].
  unfold KK_min_index in C. lia.
Defined.

Lemma KPP_min_index_not_quartic :
  ~ (KKP_min_index 81 = 81 * 81 /\
     KPP_min_index 81 1548 = 81 * 81 + 81 * 81 * 81 * 81 * 1548).
Proof. intros [_ H]. vm_compute in H. discriminate H. Qed.

Lemma index_range_offsets_witness :
  layout_fits 81 1548 32 32 /\
  KKP_min_index 81 = 6561 /\
  KPP_min_index 81 1548 = 6561 + 10156428.
Proof.
  destruct (index_range_offsets 81 1548 32 32 layout_fits_shogi)
    as (_ & A & B & _).
  split; [exact layout_fits_shogi|]. lia.
Defined.

Lemma folding_stays_in_family_witness :
  layout_fits 81 1548 32 32 /\
  KPP_valid 81 1548 (mkKPP 5 10 20) /\
  Forall (fun u => KPP_is_ok 81 1548 (KPP_toIndex 81 1548 u) = true /\
                   KK_is_ok 81 (KPP_toIndex 81 1548 u) = false /\
                   KKP_is_ok 81 1548 (KPP_toIndex 81 1548 u) = false)
         (KPP_toLowerDimensions mirror_file9 (reverse_codes 1548)
                                (mkKPP 5 10 20)).
Proof.
  assert (V : KPP_valid 81 1548 (mkKPP 5 10 20)).
  { unfold KPP_valid, is_square, is_piece. cbn. lia. }
  split; [exact layout_fits_shogi|].
  split; [exact V|].
  exact (proj2 (proj2 (folding_stays_in_family 81 1548 32 32
                         mirror_file9 (reverse_codes 1548)
                         layout_fits_shogi mirror_file9_square
                         (reverse_codes_piece 1548))) _ V).
Defined.

Lemma round_trip_fails_past_int32_king :
  KK_min_index <= 173946175488 < 2 ^ 64 /\
  173946175488 = 2 ^ 31 * 81 /\
  KK_fromIndex 81 32 173946175488 = mkKK (-2147483648) 0 /\
  KK_toIndex 81 (KK_fromIndex 81 32 173946175488) = 18446743899763376128 /\
  KK_toIndex 81 (KK_fromIndex 81 32 173946175488) <> 173946175488 /\
  KKP_fromIndex 81 1548 32 32 (KKP_min_index 81 + 2 ^ 31 * 81 * 1548)
  = mkKKP (-2147483648) 0 0 /\
  KKP_toIndex 81 1548
    (KKP_fromIndex 81 1548 32 32 (KKP_min_index 81 + 2 ^ 31 * 81 * 1548))
  <> KKP_min_index 81 + 2 ^ 31 * 81 * 1548 /\
  KPP_fromIndex 81 1548 32 32 (KPP_min_index 81 1548 + 2 ^ 31 * 1548 * 1548)
  = mkKPP (-2147483648) 0 0 /\
  KPP_toIndex 81 1548
    (KPP_fromIndex 81 1548 32 32
       (KPP_min_index 81 1548 + 2 ^ 31 * 1548 * 1548))
  <> KPP_min_index 81 1548 + 2 ^ 31 * 1548 * 1548.
Proof.
  repeat split; try (vm_compute; discriminate); vm_compute; reflexivity.
Qed.

Lemma decode_encode_beyond_range_witness :
  layout_fits 81 1548 32 32 /\
  KPP_is_ok 81 1548 300000000 = false /\
  KPP_king (KPP_fromIndex 81 1548 32 32 300000000) = 120 /\
  KPP_toIndex 81 1548 (KPP_fromIndex 81 1548 32 32 300000000) = 300000000.
Proof.
  destruct (decode_encode_beyond_range 81 1548 32 32 layout_fits_shogi)
    as (_ & _ & A & _).
  split; [exact layout_fits_shogi|].
  split; [reflexivity|]. split; [reflexivity|].
  apply A.
  - split; [vm_compute; discriminate | reflexivity].
  - reflexivity.
Defined.

Lemma KPP_piece_order_kept_witness :
  is_square 81 5 /\ is_piece 1548 10 /\ is_piece 1548 20 /\ 10 <> 20 /\
  KPP_toIndex 81 1548 (mkKPP 5 10 20) <> KPP_toIndex 81 1548 (mkKPP 5 20 10).
Proof.
  assert (S5 : is_square 81 5) by (unfold is_square; lia).
  assert (P10 : is_piece 1548 10) by (unfold is_piece; lia).
  assert (P20 : is_piece 1548 20) by (unfold is_piece; lia).
  assert (N : 10 <> 20) by lia.
  repeat (split; [assumption|]).
  exact (proj1 (KPP_piece_order_kept 81 1548 32 32 mirror_file9
                  (reverse_codes 1548) layout_fits_shogi 5 10 20
                  S5 P10 P20 N)).
Defined.

(** ** Rounding keeps the mantissa below [2^prec] *)

Lemma digits2_pos_bound (m : positive) : Zpos m < 2 ^ Zpos (digits2_pos m).
Proof.
  induction m as [p IH | p IH |]; cbn [digits2_pos].
  - rewrite Pos2Z.inj_succ, Z.pow_succ_r by lia. lia.
  - rewrite Pos2Z.inj_succ, Z.pow_succ_r by lia. lia.
  - reflexivity.
Qed.

Lemma quot_2_pos (p : positive) :
  Z.quot (Zpos p) 2 =
  match p with xH => 0 | xO q => Zpos q | xI q => Zpos q end.
Proof.
  symmetry. destruct p as [q | q |].
  - apply Z.quot_unique with 1; lia.
  - apply Z.quot_unique with 0; lia.
  - reflexivity.
Qed.

Lemma shr_1_quot (mrs : shr_record) :
  shr_m (shr_1 mrs) = Z.quot (shr_m mrs) 2.
Proof.
  destruct mrs as [m r s]. destruct m as [| p | p]; cbn [shr_1 shr_m].
  - reflexivity.
  - rewrite quot_2_pos. destruct p; reflexivity.
  - change (Zneg p) with (- Zpos p).
    rewrite Z.quot_opp_l, quot_2_pos by lia. destruct p; reflexivity.
Qed.

Lemma iter_shr_1_quot (p : positive) :
  forall mrs, shr_m (iter_pos shr_1 p mrs) = Z.quot (shr_m mrs) (2 ^ Zpos p).
Proof.
  induction p as [p IH | p IH |]; intros mrs; cbn [iter_pos].
  - rewrite !IH, shr_1_quot.
    rewrite !Z.quot_quot by (try apply Z.pow_nonzero; lia).
    f_equal. rewrite Pos2Z.inj_xI, Z.pow_add_r, Z.pow_mul_r by lia.
    change (2 ^ 2) with 4. change (2 ^ 1) with 2.
    rewrite <- Z.pow_twice_r. rewrite Z.pow_mul_r by lia. change (2^2) with 4. ring.
  - rewrite !IH.
    rewrite !Z.quot_quot by (try apply Z.pow_nonzero; lia).
    f_equal. rewrite Pos2Z.inj_xO, <- Z.pow_twice_r. reflexivity.
  - rewrite shr_1_quot. reflexivity.
Qed.

Section Bounded.

Variables prec emax : Z.
Hypothesis Hprec : 0 <= prec.

Lemma shr_fexp_bound (m e : Z) (l : location) :
  shr_m (fst (shr_fexp prec emax m e l)) < 2 ^ prec.
Proof using Hprec.
  assert (P : 0 < 2 ^ prec) by (apply Z.pow_pos_nonneg; lia).
  unfold shr_fexp, shr.
  assert (R : shr_m (shr_record_of_loc m l) = m).
  { destruct l as [| []]; reflexivity. }
  remember (shr_record_of_loc m l) as mrs eqn:Em.
  remember (fexp prec emax (Zdigits2 m + e) - e) as n eqn:En.
  assert (Hn : Zdigits2 m - prec <= n).
  { subst n. unfold fexp. lia. }
  destruct m as [| q | q].
  - destruct n as [| p | p]; cbn [fst]; rewrite ?iter_shr_1_quot, R;
      rewrite ?Z.quot_0_l by (apply Z.pow_nonzero; lia); lia.
  - pose proof (digits2_pos_bound q) as D. cbn [Zdigits2] in Hn.
    destruct n as [| p | p]; cbn [fst]; rewrite ?iter_shr_1_quot, R.
    + apply Z.lt_le_trans with (1 := D). apply Z.pow_le_mono_r; lia.
    + rewrite Z.quot_div_nonneg by (try apply Z.pow_pos_nonneg; lia).
      apply Z.div_lt_upper_bound; [apply Z.pow_pos_nonneg; lia|].
      rewrite <- Z.pow_add_r by lia.
      apply Z.lt_le_trans with (1 := D). apply Z.pow_le_mono_r; lia.
    + apply Z.lt_le_trans with (1 := D). apply Z.pow_le_mono_r; lia.
  - destruct n as [| p | p]; cbn [fst]; rewrite ?iter_shr_1_quot, R; try lia.
    change (Zneg q) with (- Zpos q).
    rewrite Z.quot_opp_l by (apply Z.pow_nonzero; lia).
    assert (0 <= Z.quot (Zpos q) (2 ^ Zpos p)).
    { apply Z.quot_pos; [lia | apply Z.pow_pos_nonneg; lia]. }
    lia.
Qed.

Lemma binary_round_aux_bounded (sx : bool) (mx ex : Z) (lx : location) :
  mant_bounded prec (binary_round_aux prec emax sx mx ex lx).
Proof using Hprec.
  unfold binary_round_aux.
  destruct (shr_fexp prec emax mx ex lx) as [mrs' e'].
  pose proof (shr_fexp_bound
                (round_nearest_even (shr_m mrs') (loc_of_shr_record mrs'))
                e' loc_Exact) as B.
  destruct (shr_fexp prec emax _ e' loc_Exact) as [mrs'' e''].
  cbn [fst] in B.
  destruct (shr_m mrs'') as [| m | m]; cbn [mant_bounded]; try exact I.
  destruct (e'' <=? emax - prec); cbn [mant_bounded]; [exact B | exact I].
Qed.

Lemma binary_normalize_bounded (m e : Z) (szero : bool) :
  mant_bounded prec (binary_normalize prec emax m e szero).
Proof using Hprec.
  unfold binary_normalize, binary_round.
  destruct m as [| p | p]; [exact I | |];
    destruct (shl_align p e _) as [mz ez]; apply binary_round_aux_bounded.
Qed.

Lemma SFadd_bounded (x y : spec_float) :
  mant_bounded prec x -> mant_bounded prec y ->
  mant_bounded prec (SFadd prec emax x y).
Proof using Hprec.
  intros Hx Hy.
  destruct x as [sx | sx | | sx mx ex], y as [sy | sy | | sy my ey];
    cbn [SFadd]; try exact I; try assumption;
    try (destruct sx, sy; exact I).
  apply binary_normalize_bounded.
Qed.

Lemma SFsub_bounded (x y : spec_float) :
  mant_bounded prec x -> mant_bounded prec y ->
  mant_bounded prec (SFsub prec emax x y).
Proof using Hprec.
  intros Hx Hy.
  destruct x as [sx | sx | | sx mx ex], y as [sy | sy | | sy my ey];
    cbn [SFsub]; try exact I; try assumption;
    try (destruct sx, sy; exact I).
  apply binary_normalize_bounded.
Qed.

Lemma SFdiv_bounded (x y : spec_float) :
  mant_bounded prec (SFdiv prec emax x y).
Proof using Hprec.
  destruct x as [sx | sx | | sx mx ex], y as [sy | sy | | sy my ey];
    cbn [SFdiv]; try exact I.
  destruct (SFdiv_core_binary prec emax (Zpos mx) ex (Zpos my) ey)
    as [[mz ez] lz].
  apply binary_round_aux_bounded.
Qed.

End Bounded.


(** ** Integers below [2^53] are doubles *)

Lemma digits2_pos_lower (m : positive) :
  2 ^ (Zpos (digits2_pos m) - 1) <= Zpos m.
Proof.
  induction m as [p IH | p IH |]; cbn [digits2_pos].
  - rewrite Pos2Z.inj_succ.
    replace (Z.succ (Zpos (digits2_pos p)) - 1)
      with (Z.succ (Zpos (digits2_pos p) - 1)) by lia.
    rewrite Z.pow_succ_r by lia. lia.
  - rewrite Pos2Z.inj_succ.
    replace (Z.succ (Zpos (digits2_pos p)) - 1)
      with (Z.succ (Zpos (digits2_pos p) - 1)) by lia.
    rewrite Z.pow_succ_r by lia. lia.
  - cbn. lia.
Qed.

Lemma iter_xO_spec (p n : positive) :
  Zpos (Pos.iter xO p n) = Zpos p * 2 ^ Zpos n /\
  Zpos (digits2_pos (Pos.iter xO p n)) = Zpos (digits2_pos p) + Zpos n.
Proof.
  induction n as [| n [IH1 IH2]] using Pos.peano_ind.
  - cbn [Pos.iter digits2_pos]. rewrite Pos2Z.inj_succ. split; lia.
  - rewrite Pos.iter_succ. cbn [digits2_pos].
    rewrite Pos2Z.inj_xO, !Pos2Z.inj_succ, IH1, IH2.
    rewrite Z.pow_succ_r by lia. split; lia.
Qed.

Lemma binary_round_aux_exact (s : bool) (m : positive) (e : Z) :
  Zpos (digits2_pos m) = 53 -> -1074 <= e <= 971 ->
  binary_round_aux prec64 emax64 s (Zpos m) e loc_Exact = S754_finite s m e.
Proof.
  intros Hd He.
  assert (F : fexp prec64 emax64 (53 + e) - e = 0).
  { unfold fexp, emin, prec64, emax64. lia. }
  unfold binary_round_aux, shr_fexp. cbn [Zdigits2]. rewrite Hd, F.
  cbn [shr shr_record_of_loc shr_m loc_of_shr_record round_nearest_even
       Zdigits2].
  rewrite Hd, F. cbn [shr shr_m].
  replace (e <=? emax64 - prec64) with true; [reflexivity|].
  symmetry. apply Z.leb_le. unfold emax64, prec64. lia.
Qed.

Lemma binary_round_int (s : bool) (p : positive) :
  Zpos p < 2 ^ 53 ->
  Ztrunc (binary_round prec64 emax64 s p 0) = cond_Zopp s (Zpos p).
Proof.
  intros Hp.
  pose proof (digits2_pos_lower p) as L.
  assert (D : Zpos (digits2_pos p) <= 53).
  { destruct (Z.le_gt_cases (Zpos (digits2_pos p)) 53) as [C | C]; [exact C|].
    assert (2 ^ 53 <= 2 ^ (Zpos (digits2_pos p) - 1))
      by (apply Z.pow_le_mono_r; lia).
    lia. }
  unfold binary_round, shl_align.
  assert (F : fexp prec64 emax64 (Zpos (digits2_pos p) + 0)
              = Zpos (digits2_pos p) - 53).
  { unfold fexp, emin, prec64, emax64. lia. }
  rewrite F, Z.sub_0_r.
  destruct (Zpos (digits2_pos p) - 53) as [| k | k] eqn:Ek; try lia.
  - rewrite binary_round_aux_exact by lia.
    cbn [Ztrunc]. rewrite Z.mul_1_r. reflexivity.
  - destruct (iter_xO_spec p k) as [I1 I2].
    rewrite binary_round_aux_exact by lia.
    cbn [Ztrunc]. rewrite I1.
    rewrite Z.div_mul by (apply Z.pow_nonzero; lia). reflexivity.
Qed.

Lemma double_of_int_exact (n : Z) (s : bool) :
  - 2 ^ 53 < n < 2 ^ 53 ->
  Ztrunc (binary_normalize prec64 emax64 n 0 s) = n.
Proof.
  intros H. destruct n as [| p | p]; cbn [binary_normalize].
  - reflexivity.
  - rewrite binary_round_int by lia. reflexivity.
  - rewrite binary_round_int by lia. reflexivity.
Qed.

(** ** The clamp *)

Lemma clamp_hi_eq : clamp_hi = S754_finite false 6755193282625536 (-38).
Proof. vm_compute. reflexivity. Qed.

Lemma clamp_lo_eq : clamp_lo = S754_finite true 6755399441055744 (-38).
Proof. vm_compute. reflexivity. Qed.

Lemma round_below_bound (m : positive) (e bm lim : Z) :
  Zpos m < 2 ^ 53 ->
  bm + 2 ^ 37 <= (lim + 1) * 2 ^ 38 ->
  2 ^ 14 + 1 <= lim ->
  e < -38 \/ (e = -38 /\ Zpos m < bm) ->
  exists k, e = Zneg k /\
            0 <= (Zpos m + 2 ^ (Zpos k - 1)) / 2 ^ Zpos k <= lim.
Proof.
  intros Hm Hl Hlim He.
  destruct e as [| k | k]; try lia.
  exists k. split; [reflexivity|].
  assert (P : 0 < 2 ^ Zpos k) by (apply Z.pow_pos_nonneg; lia).
  assert (P1 : 0 < 2 ^ (Zpos k - 1)) by (apply Z.pow_pos_nonneg; lia).
  assert (E : 2 ^ Zpos k = 2 * 2 ^ (Zpos k - 1)).
  { rewrite <- Z.pow_succ_r by lia. f_equal. lia. }
  split; [apply Z.div_pos; lia|].
  apply Z.lt_succ_r. apply Z.div_lt_upper_bound; [exact P|].
  destruct He as [He | [He Hlt]].
  - assert (L : 2 ^ 39 <= 2 ^ Zpos k) by (apply Z.pow_le_mono_r; lia).
    remember (2 ^ Zpos k) as t eqn:Et.
    remember (2 ^ (Zpos k - 1)) as h eqn:Eh.
    change (2 ^ 39) with 549755813888 in L.
    change (2 ^ 53) with 9007199254740992 in Hm.
    change (2 ^ 14) with 16384 in Hlim. nia.
  - assert (K : Zpos k = 38) by lia. rewrite K.
    change (2 ^ 38) with 274877906944 in *.
    change (2 ^ (38 - 1)) with 137438953472.
    change (2 ^ 37) with 137438953472 in Hl. lia.
Qed.


Lemma ltb_clamp_hi (s : bool) (m : positive) (e : Z) :
  SFltb (S754_finite s m e) clamp_hi = true ->
  s = true \/ e < -38 \/ (e = -38 /\ Zpos m < 6755193282625536).
Proof.
  rewrite clamp_hi_eq. unfold SFltb, SFcompare.
  destruct s; [intros _; left; reflexivity|]. intros H. right.
  destruct (Z.compare_spec e (-38)) as [C | C | C]; try discriminate H.
  - right. split; [exact C|].
    rewrite Pos.compare_cont_spec in H.
    destruct (Pos.compare_spec m 6755193282625536) as [D | D | D];
      cbn [Pos.switch_Eq] in H; try discriminate H.
    clear H. apply Pos2Z.pos_lt_pos. exact D.
  - left. exact C.
Qed.

Lemma ltb_clamp_lo (s : bool) (m : positive) (e : Z) :
  SFltb clamp_lo (S754_finite s m e) = true ->
  s = false \/ e < -38 \/ (e = -38 /\ Zpos m < 6755399441055744).
Proof.
  rewrite clamp_lo_eq. unfold SFltb, SFcompare.
  destruct s; [|intros _; left; reflexivity]. intros H. right.
  destruct (Z.compare_spec (-38) e) as [C | C | C]; try discriminate H.
  - right. split; [symmetry; exact C|].
    rewrite Pos.compare_cont_spec in H.
    destruct (Pos.compare_spec 6755399441055744 m) as [D | D | D];
      cbn [Pos.switch_Eq CompOpp] in H; try discriminate H.
    clear H. apply Pos2Z.pos_lt_pos. exact D.
  - left. exact C.
Qed.

Lemma clamp_round_range (V : spec_float) :
  mant_bounded prec64 V ->
  -24576 <= Ztrunc (dround (dmax clamp_lo (dmin clamp_hi V))) <= 24575.
Proof.
  intros HV. unfold dmin.
  destruct (SFltb V clamp_hi) eqn:Ehi; [|vm_compute; split; discriminate].
  unfold dmax.
  destruct (SFltb clamp_lo V) eqn:Elo; [|vm_compute; split; discriminate].
  destruct V as [s | s | | s m e].
  - cbn [dround Ztrunc]. clear. lia.
  - rewrite clamp_hi_eq in Ehi. rewrite clamp_lo_eq in Elo.
    destruct s; discriminate.
  - discriminate.
  - cbn [mant_bounded] in HV. unfold prec64 in HV.
    apply ltb_clamp_hi in Ehi. apply ltb_clamp_lo in Elo.
    destruct s.
    + destruct Elo as [Elo | Elo]; [discriminate|].
      assert (A1 : 6755399441055744 + 2 ^ 37 <= (24576 + 1) * 2 ^ 38)
        by (vm_compute; discriminate).
      assert (A2 : 2 ^ 14 + 1 <= 24576) by (vm_compute; discriminate).
      destruct (round_below_bound m e 6755399441055744 24576 HV A1 A2 Elo)
        as (k & -> & B).
      cbn [dround Zround_away cond_Zopp].
      clear - B.
      remember ((Zpos m + 2 ^ (Zpos k - 1)) / 2 ^ Zpos k) as n eqn:En.
      clear En.
      assert (P : 24576 < 2 ^ 53) by reflexivity.
      rewrite double_of_int_exact; lia.
    + destruct Ehi as [Ehi | Ehi]; [discriminate|].
      assert (A1 : 6755193282625536 + 2 ^ 37 <= (24575 + 1) * 2 ^ 38)
        by (vm_compute; discriminate).
      assert (A2 : 2 ^ 14 + 1 <= 24575) by (vm_compute; discriminate).
      destruct (round_below_bound m e 6755193282625536 24575 HV A1 A2 Ehi)
        as (k & -> & B).
      cbn [dround Zround_away cond_Zopp].
      clear - B.
      remember ((Zpos m + 2 ^ (Zpos k - 1)) / 2 ^ Zpos k) as n eqn:En.
      clear En.
      assert (P : 24576 < 2 ^ 53) by reflexivity.
      rewrite double_of_int_exact; lia.
Qed.

(** ** Weight::updateFV *)

Lemma sint_range (w x : Z) :
  1 <= w -> - 2 ^ (w - 1) <= x < 2 ^ (w - 1) -> sint w x = x.
Proof.
  intros Hw H. unfold sint.
  assert (E : 2 ^ w = 2 * 2 ^ (w - 1)).
  { rewrite <- Z.pow_succ_r by lia. f_equal. lia. }
  rewrite Z.mod_small by lia. lia.
Qed.

Lemma pow2_15_le (w : Z) : 16 <= w -> 2 ^ 15 <= 2 ^ (w - 1).
Proof. intros H. apply Z.pow_le_mono_r; lia. Qed.

Lemma aget_aset_same {A} (a : array2 A) (i : nat) (x : A) :
  aget (aset a i x) i = x.
Proof. destruct i; reflexivity. Qed.

Lemma aget_aset_other {A} (a : array2 A) (i j : nat) (x : A) :
  (i < 2)%nat -> (j < 2)%nat -> i <> j -> aget (aset a i x) j = aget a j.
Proof.
  intros Hi Hj Hne.
  destruct i as [| [| i]], j as [| [| j]]; try lia; reflexivity.
Qed.

Section AdaGradFacts.

Variables lprec lemax Tbits : Z.
Variable eta : spec_float.

Local Abbreviation body := (AdaGrad.updateFV_body lprec lemax Tbits eta).

Lemma adagrad_body_skip (i : nat) (w : AdaGrad.Weight) (v : array2 Z) :
  SFeqb (aget (AdaGrad.g w) i) (S754_zero false) = true ->
  body i (w, v) = (w, v).
Proof. intros H. unfold AdaGrad.updateFV_body. rewrite H. reflexivity. Qed.

Lemma adagrad_body_g (i : nat) (st : AdaGrad.Weight * array2 Z) :
  AdaGrad.g (fst (body i st)) = AdaGrad.g (fst st).
Proof.
  destruct st as [w v]. unfold AdaGrad.updateFV_body.
  destruct (SFeqb _ _); reflexivity.
Qed.

Lemma adagrad_body_other (i j : nat) (st : AdaGrad.Weight * array2 Z) :
  (i < 2)%nat -> (j < 2)%nat -> i <> j ->
  aget (snd (body i st)) j = aget (snd st) j /\
  aget (AdaGrad.v8 (fst (body i st))) j = aget (AdaGrad.v8 (fst st)) j /\
  aget (AdaGrad.g2 (fst (body i st))) j = aget (AdaGrad.g2 (fst st)) j.
Proof.
  intros Hi Hj Hne. destruct st as [w v]. unfold AdaGrad.updateFV_body.
  destruct (SFeqb _ _); [repeat split|].
  cbn [fst snd AdaGrad.v8 AdaGrad.g2].
  rewrite !aget_aset_other by assumption. repeat split.
Qed.

Lemma adagrad_body_range (i : nat) (w : AdaGrad.Weight) (v : array2 Z) :
  16 <= Tbits ->
  SFeqb (aget (AdaGrad.g w) i) (S754_zero false) = false ->
  -24576 <= aget (snd (body i (w, v))) i <= 24575.
Proof.
  intros HT Hg. unfold AdaGrad.updateFV_body. rewrite Hg.
  cbn [snd]. rewrite aget_aset_same.
  match goal with
  | |- _ <= sint _ (Ztrunc (dround (dmax clamp_lo (dmin clamp_hi ?V)))) <= _ =>
      assert (B : mant_bounded prec64 V)
  end.
  { assert (P : 0 <= prec64) by (unfold prec64; lia).
    apply SFsub_bounded; [exact P | | apply SFdiv_bounded; exact P].
    apply SFadd_bounded; [exact P | | apply SFdiv_bounded; exact P].
    apply binary_normalize_bounded; exact P. }
  pose proof (clamp_round_range _ B) as R.
  pose proof (pow2_15_le Tbits HT) as L.
  change (2 ^ 15) with 32768 in L.
  rewrite sint_range by lia. exact R.
Qed.

(** C8: a channel whose accumulated gradient compares equal to zero
    keeps its live value, its fractional carry and its squared-gradient
    sum through [updateFV], whatever the other channel holds. *)
Theorem adagrad_updateFV_zero_gradient :
  forall (w : AdaGrad.Weight) (v : array2 Z) (i : nat),
    (i < 2)%nat ->
    SFeqb (aget (AdaGrad.g w) i) (S754_zero false) = true ->
    let st := AdaGrad.updateFV lprec lemax Tbits eta w v in
    aget (snd st) i = aget v i /\
    aget (AdaGrad.v8 (fst st)) i = aget (AdaGrad.v8 w) i /\
    aget (AdaGrad.g2 (fst st)) i = aget (AdaGrad.g2 w) i.
Proof.
  intros w v i Hi Hg. unfold AdaGrad.updateFV. cbn [fold_left].
  destruct i as [| [| i]]; [| | lia].
  - rewrite (adagrad_body_skip 0 w v Hg).
    apply (adagrad_body_other 1 0 (w, v)); lia.
  - destruct (adagrad_body_other 0 1 (w, v)) as (A & B & C); try lia.
    cbn [fst snd] in A, B, C. cbv zeta. rewrite <- A, <- B, <- C.
    pose proof (adagrad_body_g 0 (w, v)) as G. cbn [fst] in G.
    destruct (body 0%nat (w, v)) as [w1 v1] eqn:E. cbn [fst snd] in *.
    rewrite <- G in Hg.
    rewrite (adagrad_body_skip 1 w1 v1 Hg). repeat split.
Qed.

(** C5, amended: a channel with a nonzero accumulated gradient leaves
    [updateFV] with a live value in
    [[0.75 * INT16_MIN, 0.75 * INT16_MAX]], whatever the gradient, the
    squared sum, the carry, [eta] and the value before. *)
Theorem adagrad_updateFV_clamped :
  forall (w : AdaGrad.Weight) (v : array2 Z) (i : nat),
    16 <= Tbits ->
    (i < 2)%nat ->
    SFeqb (aget (AdaGrad.g w) i) (S754_zero false) = false ->
    let v' := snd (AdaGrad.updateFV lprec lemax Tbits eta w v) in
    INT16_MIN * 3 <= 4 * aget v' i <= INT16_MAX * 3.
Proof.
  intros w v i HT Hi Hg. unfold AdaGrad.updateFV. cbn [fold_left].
  assert (R : -24576 <=
              aget (snd (body 1%nat (body 0%nat (w, v)))) i <= 24575).
  { destruct i as [| [| i]]; [| | lia].
    - destruct (adagrad_body_other 1 0 (body 0%nat (w, v))) as (A & _);
        try lia.
      rewrite A. apply adagrad_body_range; assumption.
    - pose proof (adagrad_body_g 0 (w, v)) as G. cbn [fst] in G.
      destruct (body 0%nat (w, v)) as [w1 v1] eqn:E. cbn [fst] in G.
      rewrite <- G in Hg. apply adagrad_body_range; assumption. }
  cbv zeta. unfold INT16_MIN, INT16_MAX. lia.
Qed.

End AdaGradFacts.

Lemma adagrad_updateFV_zero_gradient_witness :
  SFeqb (aget (AdaGrad.g adagrad_sample_zero) 0) (S754_zero false) = true /\
  SFeqb (aget (AdaGrad.g adagrad_sample_zero) 1) (S754_zero false) = false /\
  let st := AdaGrad.updateFV prec32 emax32 16 eta_30
                             adagrad_sample_zero (7, 9) in
  aget (snd st) 0 = 7 /\
  aget (AdaGrad.v8 (fst st)) 0 = 5 /\
  aget (AdaGrad.g2 (fst st)) 0 = float_of_Z 4 /\
  aget (snd st) 1 = -21.
Proof.
  split; [reflexivity|]. split; [reflexivity|].
  pose proof (adagrad_updateFV_zero_gradient prec32 emax32 16 eta_30
                adagrad_sample_zero (7, 9) 0%nat
                (Nat.lt_0_succ 1) eq_refl) as (A & B & C).
  split; [exact A|]. split; [exact B|]. split; [exact C|].
  vm_compute. reflexivity.
Defined.

Lemma adagrad_updateFV_clamped_witness :
  16 <= 16 /\
  SFeqb (aget (AdaGrad.g adagrad_sample) 0) (S754_zero false) = false /\
  let v' := snd (AdaGrad.updateFV prec32 emax32 16 eta_30
                                  adagrad_sample (100, 0)) in
  INT16_MIN * 3 <= 4 * aget v' 0 <= INT16_MAX * 3.
Proof.
  split; [apply Z.le_refl|]. split; [reflexivity|].
  exact (adagrad_updateFV_clamped prec32 emax32 16 eta_30
           adagrad_sample (100, 0) 0%nat
           (Z.le_refl 16) (Nat.lt_0_succ 1) eq_refl).
Defined.

Lemma adagrad_clamp_reaches_three_quarters_of_INT16_MIN :
  SFeqb (aget (AdaGrad.g adagrad_sample) 0) (S754_zero false) = false /\
  let v' := snd (AdaGrad.updateFV prec32 emax32 16 eta_30
                                  adagrad_sample (-24560, 0)) in
  aget v' 0 = -24576 /\
  ~ (- (INT16_MAX * 3) <= 4 * aget v' 0 <= INT16_MAX * 3).
Proof.
  split; [reflexivity|].
  assert (E : aget (snd (AdaGrad.updateFV prec32 emax32 16 eta_30
                                          adagrad_sample (-24560, 0))) 0
              = -24576) by (vm_compute; reflexivity).
  cbv zeta. rewrite E. split; [reflexivity|].
  unfold INT16_MAX. intros [H _]. revert H. vm_compute.
  intros H. apply H. reflexivity.
Qed.

(** *** SGD_UPDATE *)

Lemma Ztrunc_clamp_hi : s16 (Ztrunc clamp_hi) = 24575.
Proof. vm_compute. reflexivity. Qed.

Lemma Ztrunc_clamp_lo : s16 (Ztrunc clamp_lo) = -24576.
Proof. vm_compute. reflexivity. Qed.

Lemma SFltb_zero_asym (d : spec_float) :
  SFltb d (S754_zero false) = true -> SFltb (S754_zero false) d = false.
Proof.
  destruct d as [s | s | | s m e]; cbn; try discriminate;
    destruct s; try discriminate; reflexivity.
Qed.

Section SGDFacts.

Variable Tbits : Z.
Variable PRNG : Type.
Variable rand : PRNG -> Z -> Z * PRNG.

Lemma sgd_clamp_eq (V : Z) :
  16 <= Tbits -> - 2 ^ 15 <= V < 2 ^ 15 ->
  SGD.clamp Tbits V = Z.max (-24576) (Z.min 24575 V).
Proof.
  intros HT HV. unfold SGD.clamp.
  pose proof (pow2_15_le Tbits HT) as L.
  change (2 ^ 15) with 32768 in *.
  rewrite Ztrunc_clamp_hi, Ztrunc_clamp_lo.
  assert (E16 : forall x, -32768 <= x < 32768 -> s16 x = x).
  { intros x Hx. unfold s16. apply sint_range; [lia|].
    change (2 ^ (16 - 1)) with 32768. lia. }
  rewrite (E16 V HV).
  assert (M : imin 24575 V = Z.min 24575 V).
  { unfold imin. destruct (Z.ltb_spec V 24575); lia. }
  rewrite M.
  rewrite (sint_range Tbits (Z.min 24575 V)) by lia.
  rewrite (E16 (Z.min 24575 V)) by lia.
  assert (N : imax (-24576) (Z.min 24575 V) = Z.max (-24576) (Z.min 24575 V)).
  { unfold imax. destruct (Z.ltb_spec (-24576) (Z.min 24575 V)); lia. }
  rewrite N. apply sint_range; lia.
Qed.

(** C4, amended: a channel whose gradient compares equal to zero is
    skipped without a draw.  Otherwise [rand.rand(3)] is drawn once:
    the channel is skipped when the draw is not 0 and updated when it
    is 0, one outcome of three.  The update takes 1 from the value when
    the gradient is positive and adds 1 when it is negative, then
    bounds the result by -24576 and 24575. *)
Theorem sgd_updateFV_channel :
  forall (w : SGD.Weight) (s : PRNG) (v : array2 Z) (i : nat),
    16 <= Tbits ->
    let gi := aget (SGD.g w) i in
    let r := fst (rand s 3) in
    let s' := snd (rand s 3) in
    (SFeqb gi (S754_zero false) = true ->
     SGD.updateFV_body Tbits PRNG rand w i (s, v) = (s, v)) /\
    (SFeqb gi (S754_zero false) = false -> r <> 0 ->
     SGD.updateFV_body Tbits PRNG rand w i (s, v) = (s', v)) /\
    (SFeqb gi (S754_zero false) = false -> r = 0 ->
     SGD.updateFV_body Tbits PRNG rand w i (s, v) =
     (s', aset v i (SGD.clamp Tbits (SGD.sign_step Tbits gi (aget v i))))) /\
    (forall vi, filter (fun d => match SGD.on_draw Tbits gi d vi with
                                 | Some _ => true
                                 | None => false
                                 end) [0; 1; 2] = [0]) /\
    (forall vi, - 2 ^ (Tbits - 1) < vi < 2 ^ (Tbits - 1) - 1 ->
       (SFltb (S754_zero false) (double_of_float gi) = true ->
        SGD.sign_step Tbits gi vi = vi - 1) /\
       (SFltb (double_of_float gi) (S754_zero false) = true ->
        SGD.sign_step Tbits gi vi = vi + 1)) /\
    (forall V, - 2 ^ 15 <= V < 2 ^ 15 ->
       SGD.clamp Tbits V = Z.max (-24576) (Z.min 24575 V)) /\
    SGD.updateFV Tbits PRNG rand w s v =
    SGD.updateFV_body Tbits PRNG rand w 1
      (SGD.updateFV_body Tbits PRNG rand w 0 (s, v)).
Proof.
  intros w s v i HT gi r s'. subst gi r s'.
  split; [|split; [|split; [|split; [|split; [|split]]]]].
  - intros Hg. unfold SGD.updateFV_body. rewrite Hg. reflexivity.
  - intros Hg Hr. unfold SGD.updateFV_body. rewrite Hg.
    destruct (rand s 3) as [r s1]. cbn [fst snd] in *.
    unfold SGD.on_draw. apply Z.eqb_neq in Hr. rewrite Hr. reflexivity.
  - intros Hg Hr. unfold SGD.updateFV_body. rewrite Hg.
    destruct (rand s 3) as [r s1]. cbn [fst snd] in *. subst r.
    reflexivity.
  - intros vi. reflexivity.
  - intros vi Hv. unfold SGD.sign_step. split; intros Hs.
    + rewrite Hs. apply sint_range; lia.
    + rewrite (SFltb_zero_asym _ Hs). apply sint_range; lia.
  - intros V HV. apply sgd_clamp_eq; assumption.
  - reflexivity.
Qed.

End SGDFacts.

Lemma sgd_updateFV_channel_witness :
  16 <= 16 /\
  SFeqb (aget (SGD.g sgd_sample) 0) (S754_zero false) = false /\
  fst (SGD.script_rand [0; 0] 3) = 0 /\
  SGD.updateFV_body 16 (list Z) SGD.script_rand sgd_sample 0 ([0; 0], (0, 0))
  = ([0], (-1, 0)).
Proof.
  split; [apply Z.le_refl|]. split; [reflexivity|]. split; [reflexivity|].
  destruct (sgd_updateFV_channel 16 (list Z) SGD.script_rand sgd_sample
              [0; 0] (0, 0) 0%nat (Z.le_refl 16)) as (_ & _ & A & _).
  etransitivity; [exact (A eq_refl eq_refl)|]. vm_compute. reflexivity.
Defined.

Lemma sgd_moves_on_one_draw_of_three :
  SFeqb (aget (SGD.g sgd_sample) 0) (S754_zero false) = false /\
  map (fun r => fst (sgd_run r)) [0; 1; 2] = [-1; 0; 0] /\
  Nat.mul 3 (length (filter (fun r => negb (fst (sgd_run r) =? 0)) [0; 1; 2]))
  <> Nat.mul 2 (length [0; 1; 2]).
Proof.
  split; [reflexivity|]. split; [vm_compute; reflexivity|].
  vm_compute. discriminate.
Qed.

(** ** More on the index families *)

Section DecodedTuples.

Variables SQ_NB fe_end sq_bits bp_bits : Z.
Hypothesis Hfit : layout_fits SQ_NB fe_end sq_bits bp_bits.

Lemma KK_fromIndex_eq (i : Z) :
  KK_min_index <= i < 2 ^ 64 ->
  (i - KK_min_index) / SQ_NB < 2 ^ (sq_bits - 1) ->
  KK_fromIndex SQ_NB sq_bits i =
  mkKK ((i - KK_min_index) / SQ_NB) ((i - KK_min_index) mod SQ_NB).
Proof using Hfit.
  pose proof Hfit as (HS & HF & HT). intros Hi Hk.
  unfold KK_fromIndex, toSquare.
  rewrite (SQ_NB_u64 _ _ _ _ Hfit).
  rewrite (u64_small (i - KK_min_index)) by (unfold KK_min_index in *; lia).
  assert (Hx : 0 <= i - KK_min_index) by lia.
  pose proof (Z.mod_pos_bound (i - KK_min_index) SQ_NB (proj1 HS)).
  pose proof (div_bounds (i - KK_min_index) SQ_NB Hx (proj1 HS)).
  rewrite !sint_small by lia. reflexivity.
Qed.

Lemma KKP_fromIndex_eq (i : Z) :
  KKP_min_index SQ_NB <= i < 2 ^ 64 ->
  (i - KKP_min_index SQ_NB) / fe_end / SQ_NB < 2 ^ (sq_bits - 1) ->
  KKP_fromIndex SQ_NB fe_end sq_bits bp_bits i =
  mkKKP ((i - KKP_min_index SQ_NB) / fe_end / SQ_NB)
        ((i - KKP_min_index SQ_NB) / fe_end mod SQ_NB)
        ((i - KKP_min_index SQ_NB) mod fe_end).
Proof using Hfit.
  pose proof Hfit as (HS & HF & HT). intros Hi Hk.
  unfold KKP_fromIndex, toSquare, toBonaPiece.
  rewrite (SQ_NB_u64 _ _ _ _ Hfit), (fe_end_u64 _ _ _ _ Hfit).
  assert (Hm : 0 <= KKP_min_index SQ_NB).
  { unfold KKP_min_index. rewrite (KK_max_index_eq _ _ _ _ Hfit). nia. }
  remember (KKP_min_index SQ_NB) as lo.
  rewrite (u64_small (i - lo)) by lia.
  assert (Hx : 0 <= i - lo) by lia.
  pose proof (Z.mod_pos_bound (i - lo) fe_end (proj1 HF)).
  pose proof (div_bounds (i - lo) fe_end Hx (proj1 HF)) as Hy.
  pose proof (Z.mod_pos_bound ((i - lo) / fe_end) SQ_NB (proj1 HS)).
  pose proof (div_bounds ((i - lo) / fe_end) SQ_NB (proj1 Hy) (proj1 HS)).
  rewrite !sint_small by lia. reflexivity.
Qed.

Lemma KPP_fromIndex_eq (i : Z) :
  KPP_min_index SQ_NB fe_end <= i < 2 ^ 64 ->
  (i - KPP_min_index SQ_NB fe_end) / fe_end / fe_end < 2 ^ (sq_bits - 1) ->
  KPP_fromIndex SQ_NB fe_end sq_bits bp_bits i =
  mkKPP ((i - KPP_min_index SQ_NB fe_end) / fe_end / fe_end)
        ((i - KPP_min_index SQ_NB fe_end) / fe_end mod fe_end)
        ((i - KPP_min_index SQ_NB fe_end) mod fe_end).
Proof using Hfit.
  pose proof Hfit as (HS & HF & HT). intros Hi Hk.
  unfold KPP_fromIndex, toSquare, toBonaPiece.
  rewrite (fe_end_u64 _ _ _ _ Hfit).
  assert (Hm : 0 <= KPP_min_index SQ_NB fe_end).
  { unfold KPP_min_index. rewrite (KKP_max_index_eq _ _ _ _ Hfit). nia. }
  remember (KPP_min_index SQ_NB fe_end) as lo.
  rewrite (u64_small (i - lo)) by lia.
  assert (Hx : 0 <= i - lo) by lia.
  pose proof (Z.mod_pos_bound (i - lo) fe_end (proj1 HF)).
  pose proof (div_bounds (i - lo) fe_end Hx (proj1 HF)) as Hy.
  pose proof (Z.mod_pos_bound ((i - lo) / fe_end) fe_end (proj1 HF)).
  pose proof (div_bounds ((i - lo) / fe_end) fe_end (proj1 Hy) (proj1 HF)).
  rewrite !sint_small by lia. reflexivity.
Qed.

Lemma div_lt_iff (x b c : Z) : 0 < b -> x / b < c <-> x < c * b.
Proof.
  intros Hb. split; intros H.
  - destruct (Z.lt_ge_cases x (c * b)) as [L | L]; [exact L|].
    assert (c <= x / b) by (apply Z.div_le_lower_bound; lia). lia.
  - apply Z.div_lt_upper_bound; lia.
Qed.

Lemma is_ok_bounds (i : Z) :
  (KK_is_ok SQ_NB i = true ->
   KK_min_index <= i < 2 ^ 64 /\ (i - KK_min_index) / SQ_NB < SQ_NB) /\
  (KKP_is_ok SQ_NB fe_end i = true ->
   KKP_min_index SQ_NB <= i < 2 ^ 64 /\
   (i - KKP_min_index SQ_NB) / fe_end / SQ_NB < SQ_NB) /\
  (KPP_is_ok SQ_NB fe_end i = true ->
   KPP_min_index SQ_NB fe_end <= i < 2 ^ 64 /\
   (i - KPP_min_index SQ_NB fe_end) / fe_end / fe_end < SQ_NB).
Proof using Hfit.
  pose proof Hfit as (HS & HF & HT).
  destruct (is_ok_spec _ _ _ _ Hfit i) as (A & B & C).
  assert (0 <= SQ_NB * SQ_NB * fe_end) by nia.
  assert (0 <= SQ_NB * fe_end * fe_end) by nia.
  unfold KPP_min_index, KKP_min_index.
  rewrite (KKP_max_index_eq _ _ _ _ Hfit), (KK_max_index_eq _ _ _ _ Hfit).
  unfold KK_min_index.
  split; [|split]; intros Hi.
  - apply A in Hi. split; [nia|]. apply div_lt_iff; lia.
  - apply B in Hi. split; [nia|].
    apply div_lt_iff; [lia|]. apply div_lt_iff; [lia|]. nia.
  - apply C in Hi. split; [nia|].
    apply div_lt_iff; [lia|]. apply div_lt_iff; [lia|]. nia.
Qed.

(** X1: an index of a family's range decodes to a tuple whose
    components are all in range, and the condition under [ASSERT_LV3]
    holds for it. *)
Theorem fromIndex_in_range_valid :
  (forall i, KK_is_ok SQ_NB i = true ->
     KK_valid SQ_NB (KK_fromIndex SQ_NB sq_bits i) /\
     KK_fromIndex_assert SQ_NB sq_bits i = true) /\
  (forall i, KKP_is_ok SQ_NB fe_end i = true ->
     KKP_valid SQ_NB fe_end (KKP_fromIndex SQ_NB fe_end sq_bits bp_bits i) /\
     KKP_fromIndex_assert SQ_NB fe_end sq_bits bp_bits i = true) /\
  (forall i, KPP_is_ok SQ_NB fe_end i = true ->
     KPP_valid SQ_NB fe_end (KPP_fromIndex SQ_NB fe_end sq_bits bp_bits i) /\
     KPP_fromIndex_assert SQ_NB fe_end sq_bits bp_bits i = true).
Proof using Hfit.
  pose proof Hfit as (HS & HF & HT).
  split; [|split]; intros i Hi; destruct (is_ok_bounds i) as (A & B & C).
  - destruct (A Hi) as [Hr Hq].
    unfold KK_fromIndex_assert. rewrite KK_fromIndex_eq by lia.
    cbn [KK_king0]. split; [|apply Z.ltb_lt; exact Hq].
    unfold KK_valid, is_square. cbn [KK_king0 KK_king1].
    pose proof (Z.mod_pos_bound (i - KK_min_index) SQ_NB (proj1 HS)).
    pose proof (div_bounds (i - KK_min_index) SQ_NB ltac:(lia) (proj1 HS)).
    lia.
  - destruct (B Hi) as [Hr Hq].
    unfold KKP_fromIndex_assert. rewrite KKP_fromIndex_eq by lia.
    cbn [KKP_king0]. split; [|apply Z.ltb_lt; exact Hq].
    unfold KKP_valid, is_square, is_piece.
    cbn [KKP_king0 KKP_king1 KKP_piece].
    remember (i - KKP_min_index SQ_NB) as x.
    pose proof (Z.mod_pos_bound x fe_end (proj1 HF)).
    pose proof (div_bounds x fe_end ltac:(lia) (proj1 HF)) as Hy.
    pose proof (Z.mod_pos_bound (x / fe_end) SQ_NB (proj1 HS)).
    pose proof (div_bounds (x / fe_end) SQ_NB (proj1 Hy) (proj1 HS)).
    lia.
  - destruct (C Hi) as [Hr Hq].
    unfold KPP_fromIndex_assert. rewrite KPP_fromIndex_eq by lia.
    cbn [KPP_king]. split; [|apply Z.ltb_lt; exact Hq].
    unfold KPP_valid, is_square, is_piece.
    cbn [KPP_king KPP_piece0 KPP_piece1].
    remember (i - KPP_min_index SQ_NB fe_end) as x.
    pose proof (Z.mod_pos_bound x fe_end (proj1 HF)).
    pose proof (div_bounds x fe_end ltac:(lia) (proj1 HF)) as Hy.
    pose proof (Z.mod_pos_bound (x / fe_end) fe_end (proj1 HF)).
    pose proof (div_bounds (x / fe_end) fe_end (proj1 Hy) (proj1 HF)).
    lia.
Qed.

(** X2: for an index at or above [min_index()] whose king quotient
    fits [Square], the condition under [ASSERT_LV3] holds exactly when
    the index is below [max_index()]: the assertion is the upper range
    check. *)
Theorem fromIndex_assert_iff_below_max :
  (forall i, KK_min_index <= i < 2 ^ 64 ->
     (i - KK_min_index) / SQ_NB < 2 ^ (sq_bits - 1) ->
     (KK_fromIndex_assert SQ_NB sq_bits i = true <-> i < KK_max_index SQ_NB)) /\
  (forall i, KKP_min_index SQ_NB <= i < 2 ^ 64 ->
     (i - KKP_min_index SQ_NB) / fe_end / SQ_NB < 2 ^ (sq_bits - 1) ->
     (KKP_fromIndex_assert SQ_NB fe_end sq_bits bp_bits i = true <->
      i < KKP_max_index SQ_NB fe_end)) /\
  (forall i, KPP_min_index SQ_NB fe_end <= i < 2 ^ 64 ->
     (i - KPP_min_index SQ_NB fe_end) / fe_end / fe_end < 2 ^ (sq_bits - 1) ->
     (KPP_fromIndex_assert SQ_NB fe_end sq_bits bp_bits i = true <->
      i < KPP_max_index SQ_NB fe_end)).
Proof using Hfit.
  pose proof Hfit as (HS & HF & HT).
  split; [|split]; intros i Hi Hk.
  - unfold KK_fromIndex_assert. rewrite KK_fromIndex_eq by assumption.
    cbn [KK_king0]. rewrite Z.ltb_lt, div_lt_iff by lia.
    rewrite (KK_max_index_eq _ _ _ _ Hfit). unfold KK_min_index. lia.
  - unfold KKP_fromIndex_assert. rewrite KKP_fromIndex_eq by assumption.
    cbn [KKP_king0]. rewrite Z.ltb_lt, !div_lt_iff by lia.
    rewrite (KKP_max_index_eq _ _ _ _ Hfit). unfold KKP_min_index.
    rewrite (KK_max_index_eq _ _ _ _ Hfit). lia.
  - unfold KPP_fromIndex_assert. rewrite KPP_fromIndex_eq by assumption.
    cbn [KPP_king]. rewrite Z.ltb_lt, !div_lt_iff by lia.
    rewrite (KPP_max_index_eq _ _ _ _ Hfit). unfold KPP_min_index.
    rewrite (KKP_max_index_eq _ _ _ _ Hfit). lia.
Qed.

(** X3: in each family, two tuples in range with the same index are
    the same tuple. *)
Theorem toIndex_injective :
  (forall t u, KK_valid SQ_NB t -> KK_valid SQ_NB u ->
     KK_toIndex SQ_NB t = KK_toIndex SQ_NB u -> t = u) /\
  (forall t u, KKP_valid SQ_NB fe_end t -> KKP_valid SQ_NB fe_end u ->
     KKP_toIndex SQ_NB fe_end t = KKP_toIndex SQ_NB fe_end u -> t = u) /\
  (forall t u, KPP_valid SQ_NB fe_end t -> KPP_valid SQ_NB fe_end u ->
     KPP_toIndex SQ_NB fe_end t = KPP_toIndex SQ_NB fe_end u -> t = u).
Proof using Hfit.
  split; [|split]; intros t u Ht Hu E.
  - rewrite <- (KK_encode_decode _ _ _ _ Hfit t Ht),
            <- (KK_encode_decode _ _ _ _ Hfit u Hu), E. reflexivity.
  - rewrite <- (KKP_encode_decode _ _ _ _ Hfit t Ht),
            <- (KKP_encode_decode _ _ _ _ Hfit u Hu), E. reflexivity.
  - rewrite <- (KPP_encode_decode _ _ _ _ Hfit t Ht),
            <- (KPP_encode_decode _ _ _ _ Hfit u Hu), E. reflexivity.
Qed.

(** X4: every index of a family's range is the index of exactly one
    tuple in range of that family. *)
Theorem index_has_unique_tuple :
  (forall i, KK_is_ok SQ_NB i = true ->
     exists! t, KK_valid SQ_NB t /\ KK_toIndex SQ_NB t = i) /\
  (forall i, KKP_is_ok SQ_NB fe_end i = true ->
     exists! t, KKP_valid SQ_NB fe_end t /\ KKP_toIndex SQ_NB fe_end t = i) /\
  (forall i, KPP_is_ok SQ_NB fe_end i = true ->
     exists! t, KPP_valid SQ_NB fe_end t /\ KPP_toIndex SQ_NB fe_end t = i).
Proof using Hfit.
  pose proof Hfit as (HS & HF & HT).
  split; [|split]; intros i Hi; destruct (is_ok_bounds i) as (A & B & C).
  - destruct (A Hi) as [Hr Hq].
    assert (V : KK_valid SQ_NB (KK_fromIndex SQ_NB sq_bits i)).
    { rewrite KK_fromIndex_eq by lia.
      unfold KK_valid, is_square. cbn [KK_king0 KK_king1].
      pose proof (Z.mod_pos_bound (i - KK_min_index) SQ_NB (proj1 HS)).
      pose proof (div_bounds (i - KK_min_index) SQ_NB ltac:(lia) (proj1 HS)).
      lia. }
    assert (E : KK_toIndex SQ_NB (KK_fromIndex SQ_NB sq_bits i) = i)
      by (apply (KK_decode_encode _ _ _ _ Hfit); lia).
    exists (KK_fromIndex SQ_NB sq_bits i). split; [split; assumption|].
    intros u [Hu Eu]. rewrite <- Eu.
    apply (KK_encode_decode _ _ _ _ Hfit u Hu).
  - destruct (B Hi) as [Hr Hq].
    assert (V : KKP_valid SQ_NB fe_end
                  (KKP_fromIndex SQ_NB fe_end sq_bits bp_bits i)).
    { rewrite KKP_fromIndex_eq by lia.
      unfold KKP_valid, is_square, is_piece.
      cbn [KKP_king0 KKP_king1 KKP_piece].
      remember (i - KKP_min_index SQ_NB) as x.
      pose proof (Z.mod_pos_bound x fe_end (proj1 HF)).
      pose proof (div_bounds x fe_end ltac:(lia) (proj1 HF)) as Hy.
      pose proof (Z.mod_pos_bound (x / fe_end) SQ_NB (proj1 HS)).
      pose proof (div_bounds (x / fe_end) SQ_NB (proj1 Hy) (proj1 HS)).
      lia. }
    assert (E : KKP_toIndex SQ_NB fe_end
                  (KKP_fromIndex SQ_NB fe_end sq_bits bp_bits i) = i)
      by (apply (KKP_decode_encode _ _ _ _ Hfit); lia).
    exists (KKP_fromIndex SQ_NB fe_end sq_bits bp_bits i).
    split; [split; assumption|].
    intros u [Hu Eu]. rewrite <- Eu.
    apply (KKP_encode_decode _ _ _ _ Hfit u Hu).
  - destruct (C Hi) as [Hr Hq].
    assert (V : KPP_valid SQ_NB fe_end
                  (KPP_fromIndex SQ_NB fe_end sq_bits bp_bits i)).
    { rewrite KPP_fromIndex_eq by lia.
      unfold KPP_valid, is_square, is_piece.
      cbn [KPP_king KPP_piece0 KPP_piece1].
      remember (i - KPP_min_index SQ_NB fe_end) as x.
      pose proof (Z.mod_pos_bound x fe_end (proj1 HF)).
      pose proof (div_bounds x fe_end ltac:(lia) (proj1 HF)) as Hy.
      pose proof (Z.mod_pos_bound (x / fe_end) fe_end (proj1 HF)).
      pose proof (div_bounds (x / fe_end) fe_end (proj1 Hy) (proj1 HF)).
      lia. }
    assert (E : KPP_toIndex SQ_NB fe_end
                  (KPP_fromIndex SQ_NB fe_end sq_bits bp_bits i) = i)
      by (apply (KPP_decode_encode _ _ _ _ Hfit); lia).
    exists (KPP_fromIndex SQ_NB fe_end sq_bits bp_bits i).
    split; [split; assumption|].
    intros u [Hu Eu]. rewrite <- Eu.
    apply (KPP_encode_decode _ _ _ _ Hfit u Hu).
Qed.

Lemma radix_lt (b q r q' r' : Z) :
  0 <= r < b -> 0 <= r' < b ->
  (q * b + r < q' * b + r' <-> q < q' \/ (q = q' /\ r < r')).
Proof. intros H H'. nia. Qed.

(** X5: the index follows the lexicographic order of the components,
    most significant first: king0, king1 for KK; king0, king1, piece
    for KKP; king, piece0, piece1 for KPP. *)
Theorem toIndex_lexicographic :
  (forall t u, KK_valid SQ_NB t -> KK_valid SQ_NB u ->
     (KK_toIndex SQ_NB t < KK_toIndex SQ_NB u <->
      KK_king0 t < KK_king0 u \/
      (KK_king0 t = KK_king0 u /\ KK_king1 t < KK_king1 u))) /\
  (forall t u, KKP_valid SQ_NB fe_end t -> KKP_valid SQ_NB fe_end u ->
     (KKP_toIndex SQ_NB fe_end t < KKP_toIndex SQ_NB fe_end u <->
      KKP_king0 t < KKP_king0 u \/
      (KKP_king0 t = KKP_king0 u /\
       (KKP_king1 t < KKP_king1 u \/
        (KKP_king1 t = KKP_king1 u /\ KKP_piece t < KKP_piece u))))) /\
  (forall t u, KPP_valid SQ_NB fe_end t -> KPP_valid SQ_NB fe_end u ->
     (KPP_toIndex SQ_NB fe_end t < KPP_toIndex SQ_NB fe_end u <->
      KPP_king t < KPP_king u \/
      (KPP_king t = KPP_king u /\
       (KPP_piece0 t < KPP_piece0 u \/
        (KPP_piece0 t = KPP_piece0 u /\ KPP_piece1 t < KPP_piece1 u))))).
Proof using Hfit.
  split; [|split]; intros t u Ht Hu.
  - rewrite (KK_toIndex_eq _ _ _ _ Hfit t Ht), (KK_toIndex_eq _ _ _ _ Hfit u Hu).
    destruct Ht as [_ T1], Hu as [_ U1]. unfold is_square in *.
    apply radix_lt; assumption.
  - rewrite (KKP_toIndex_eq _ _ _ _ Hfit t Ht),
            (KKP_toIndex_eq _ _ _ _ Hfit u Hu).
    destruct Ht as (_ & T1 & T2), Hu as (_ & U1 & U2).
    unfold is_square, is_piece in *.
    rewrite <- !Z.add_assoc, <- Z.add_lt_mono_l.
    rewrite (radix_lt fe_end _ _ _ _ T2 U2).
    rewrite (radix_lt SQ_NB _ _ _ _ T1 U1).
    pose proof (radix_div (KKP_king0 t) SQ_NB (KKP_king1 t) T1) as D1.
    pose proof (radix_div (KKP_king0 u) SQ_NB (KKP_king1 u) U1) as D2.
    split.
    + intros [H | [H1 H2]]; [tauto|].
      right. assert (K : KKP_king0 t = KKP_king0 u) by congruence.
      split; [exact K|]. right. rewrite K in H1. split; [lia | exact H2].
    + intros [H | [H1 [H | [H2 H3]]]]; [tauto | tauto |].
      right. split; [congruence | exact H3].
  - rewrite (KPP_toIndex_eq _ _ _ _ Hfit t Ht),
            (KPP_toIndex_eq _ _ _ _ Hfit u Hu).
    destruct Ht as (_ & T1 & T2), Hu as (_ & U1 & U2).
    unfold is_piece in *.
    rewrite <- !Z.add_assoc, <- Z.add_lt_mono_l.
    rewrite (radix_lt fe_end _ _ _ _ T2 U2).
    rewrite (radix_lt fe_end _ _ _ _ T1 U1).
    pose proof (radix_div (KPP_king t) fe_end (KPP_piece0 t) T1) as D1.
    pose proof (radix_div (KPP_king u) fe_end (KPP_piece0 u) U1) as D2.
    split.
    + intros [H | [H1 H2]]; [tauto|].
      right. assert (K : KPP_king t = KPP_king u) by congruence.
      split; [exact K|]. right. rewrite K in H1. split; [lia | exact H2].
    + intros [H | [H1 [H | [H2 H3]]]]; [tauto | tauto |].
      right. split; [congruence | exact H3].
Qed.

End DecodedTuples.

Section FoldingClosure.

Variables SQ_NB fe_end : Z.
Variable Mir : Z -> Z.
Variable mir_piece : Z -> Z.

Hypothesis Mir_square : forall s, is_square SQ_NB s -> is_square SQ_NB (Mir s).
Hypothesis Mir_twice : forall s, is_square SQ_NB s -> Mir (Mir s) = s.
Hypothesis mir_piece_piece :
  forall p, is_piece fe_end p -> is_piece fe_end (mir_piece p).
Hypothesis mir_piece_twice :
  forall p, is_piece fe_end p -> mir_piece (mir_piece p) = p.

(** X6: when [Mir] and [mir_piece] are involutions that keep squares
    and piece codes in range, every tuple that [toLowerDimensions]
    gives for a tuple in range is in range, and folding it gives the
    same tuples again, in another order. *)
Theorem toLowerDimensions_closed :
  (forall t u, KKP_valid SQ_NB fe_end t ->
     In u (KKP_toLowerDimensions Mir mir_piece t) ->
     KKP_valid SQ_NB fe_end u /\
     Permutation (KKP_toLowerDimensions Mir mir_piece u)
                 (KKP_toLowerDimensions Mir mir_piece t)) /\
  (forall t u, KPP_valid SQ_NB fe_end t ->
     In u (KPP_toLowerDimensions Mir mir_piece t) ->
     KPP_valid SQ_NB fe_end u /\
     Permutation (KPP_toLowerDimensions Mir mir_piece u)
                 (KPP_toLowerDimensions Mir mir_piece t)).
Proof using Mir_square Mir_twice mir_piece_piece mir_piece_twice.
  split.
  - intros [k0 k1 p] u (H0 & H1 & H2) Hu. cbn in H0, H1, H2.
    unfold KKP_toLowerDimensions in Hu.
    cbn [KKP_king0 KKP_king1 KKP_piece In] in Hu.
    destruct Hu as [<- | [<- | []]].
    + split; [split; [|split]; assumption | apply Permutation_refl].
    + split; [split; [|split]; cbn; auto|].
      unfold KKP_toLowerDimensions. cbn [KKP_king0 KKP_king1 KKP_piece].
      rewrite !Mir_twice, mir_piece_twice by assumption.
      apply perm_swap.
  - intros [k p0 p1] u (H0 & H1 & H2) Hu. cbn in H0, H1, H2.
    unfold KPP_toLowerDimensions in Hu.
    cbn [KPP_king KPP_piece0 KPP_piece1 In] in Hu.
    destruct Hu as [<- | [<- | [<- | [<- | []]]]].
    + split; [split; [|split]; assumption | apply Permutation_refl].
    + split; [split; [|split]; assumption|].
      unfold KPP_toLowerDimensions. cbn [KPP_king KPP_piece0 KPP_piece1].
      eapply perm_trans; [apply perm_swap|].
      do 2 apply perm_skip. apply perm_swap.
    + split; [split; [|split]; cbn; auto|].
      unfold KPP_toLowerDimensions. cbn [KPP_king KPP_piece0 KPP_piece1].
      rewrite Mir_twice, !mir_piece_twice by assumption.
      apply (Permutation_app_comm
               [mkKPP (Mir k) (mir_piece p0) (mir_piece p1);
                mkKPP (Mir k) (mir_piece p1) (mir_piece p0)]
               [mkKPP k p0 p1; mkKPP k p1 p0]).
    + split; [split; [|split]; cbn; auto|].
      unfold KPP_toLowerDimensions. cbn [KPP_king KPP_piece0 KPP_piece1].
      rewrite Mir_twice, !mir_piece_twice by assumption.
      apply Permutation_sym.
      apply (Permutation_rev
               [mkKPP k p0 p1; mkKPP k p1 p0;
                mkKPP (Mir k) (mir_piece p0) (mir_piece p1);
                mkKPP (Mir k) (mir_piece p1) (mir_piece p0)]).
Qed.

End FoldingClosure.

Lemma mirror_file9_twice (s : Z) :
  is_square 81 s -> mirror_file9 (mirror_file9 s) = s.
Proof.
  unfold is_square, mirror_file9. intros H.
  pose proof (Z.mod_pos_bound s 9 ltac:(lia)) as R.
  pose proof (Z.div_mod s 9 ltac:(lia)) as D.
  rewrite (radix_div (8 - s / 9) 9 (s mod 9) R).
  rewrite (radix_mod (8 - s / 9) 9 (s mod 9) R). lia.
Defined.

Lemma reverse_codes_twice (n p : Z) :
  is_piece n p -> reverse_codes n (reverse_codes n p) = p.
Proof. unfold reverse_codes. intros _. lia. Defined.

Lemma toLowerDimensions_closed_witness :
  KPP_valid 81 1548 (mkKPP 5 10 20) /\
  In (mkKPP 77 1537 1527)
     (KPP_toLowerDimensions mirror_file9 (reverse_codes 1548) (mkKPP 5 10 20)) /\
  Permutation
    (KPP_toLowerDimensions mirror_file9 (reverse_codes 1548)
                           (mkKPP 77 1537 1527))
    (KPP_toLowerDimensions mirror_file9 (reverse_codes 1548) (mkKPP 5 10 20)).
Proof.
  assert (V : KPP_valid 81 1548 (mkKPP 5 10 20)).
  { unfold KPP_valid, is_square, is_piece. cbn. lia. }
  assert (M : In (mkKPP 77 1537 1527)
                 (KPP_toLowerDimensions mirror_file9 (reverse_codes 1548)
                                        (mkKPP 5 10 20))).
  { right. right. left. reflexivity. }
  split; [exact V|]. split; [exact M|].
  exact (proj2 (proj2 (toLowerDimensions_closed 81 1548 mirror_file9
                         (reverse_codes 1548) mirror_file9_square
                         mirror_file9_twice (reverse_codes_piece 1548)
                         (reverse_codes_twice 1548)) _ _ V M)).
Defined.

(** *** Instances at the sizes of the 9x9 board *)

Lemma fromIndex_in_range_valid_witness :
  layout_fits 81 1548 32 32 /\
  KPP_is_ok 81 1548 12345678 = true /\
  KPP_valid 81 1548 (KPP_fromIndex 81 1548 32 32 12345678) /\
  KPP_fromIndex_assert 81 1548 32 32 12345678 = true.
Proof.
  split; [exact layout_fits_shogi|]. split; [reflexivity|].
  exact (proj2 (proj2 (fromIndex_in_range_valid 81 1548 32 32
                         layout_fits_shogi)) 12345678 eq_refl).
Defined.

Lemma fromIndex_assert_iff_below_max_witness :
  layout_fits 81 1548 32 32 /\
  KK_min_index <= 6561 < 2 ^ 64 /\
  (6561 - KK_min_index) / 81 < 2 ^ (32 - 1) /\
  (KK_fromIndex_assert 81 32 6561 = true <-> 6561 < KK_max_index 81).
Proof.
  assert (R : KK_min_index <= 6561 < 2 ^ 64)
    by (split; [vm_compute; discriminate | reflexivity]).
  assert (Q : (6561 - KK_min_index) / 81 < 2 ^ (32 - 1)) by reflexivity.
  split; [exact layout_fits_shogi|]. split; [exact R|]. split; [exact Q|].
  exact (proj1 (fromIndex_assert_iff_below_max 81 1548 32 32
                  layout_fits_shogi) 6561 R Q).
Defined.

Lemma toIndex_injective_witness :
  layout_fits 81 1548 32 32 /\
  KK_valid 81 (mkKK 3 4) /\
  KK_valid 81 (KK_fromIndex 81 32 247) /\
  KK_toIndex 81 (mkKK 3 4) = KK_toIndex 81 (KK_fromIndex 81 32 247) /\
  mkKK 3 4 = KK_fromIndex 81 32 247.
Proof.
  assert (V1 : KK_valid 81 (mkKK 3 4)).
  { unfold KK_valid, is_square. cbn. lia. }
  assert (V2 : KK_valid 81 (KK_fromIndex 81 32 247)).
  { unfold KK_valid, is_square. vm_compute. intuition discriminate. }
  assert (E : KK_toIndex 81 (mkKK 3 4)
              = KK_toIndex 81 (KK_fromIndex 81 32 247)) by reflexivity.
  split; [exact layout_fits_shogi|]. split; [exact V1|].
  split; [exact V2|]. split; [exact E|].
  exact (proj1 (toIndex_injective 81 1548 32 32 layout_fits_shogi)
               _ _ V1 V2 E).
Defined.

Lemma index_has_unique_tuple_witness :
  layout_fits 81 1548 32 32 /\
  KPP_is_ok 81 1548 12345678 = true /\
  exists! t, KPP_valid 81 1548 t /\ KPP_toIndex 81 1548 t = 12345678.
Proof.
  split; [exact layout_fits_shogi|]. split; [reflexivity|].
  exact (proj2 (proj2 (index_has_unique_tuple 81 1548 32 32
                         layout_fits_shogi)) 12345678 eq_refl).
Defined.

Lemma toIndex_lexicographic_witness :
  layout_fits 81 1548 32 32 /\
  KPP_valid 81 1548 (mkKPP 5 10 20) /\
  KPP_valid 81 1548 (mkKPP 5 20 10) /\
  KPP_toIndex 81 1548 (mkKPP 5 10 20) < KPP_toIndex 81 1548 (mkKPP 5 20 10).
Proof.
  assert (V1 : KPP_valid 81 1548 (mkKPP 5 10 20)).
  { unfold KPP_valid, is_square, is_piece. cbn. lia. }
  assert (V2 : KPP_valid 81 1548 (mkKPP 5 20 10)).
  { unfold KPP_valid, is_square, is_piece. cbn. lia. }
  split; [exact layout_fits_shogi|]. split; [exact V1|]. split; [exact V2|].
  apply (proj2 (proj2 (toIndex_lexicographic 81 1548 32 32
                         layout_fits_shogi)) _ _ V1 V2).
  cbn. lia.
Defined.

(** ** More on the sign update *)

Lemma sint_bounds (w x : Z) :
  1 <= w -> - 2 ^ (w - 1) <= sint w x < 2 ^ (w - 1).
Proof.
  intros Hw. unfold sint.
  assert (E : 2 ^ w = 2 * 2 ^ (w - 1)).
  { rewrite <- Z.pow_succ_r by lia. f_equal. lia. }
  assert (P : 0 < 2 ^ (w - 1)) by (apply Z.pow_pos_nonneg; lia).
  pose proof (Z.mod_pos_bound (x + 2 ^ (w - 1)) (2 ^ w) ltac:(lia)). lia.
Qed.

Lemma s16_bounds (x : Z) : -32768 <= s16 x < 32768.
Proof. exact (sint_bounds 16 x ltac:(lia)). Qed.

Lemma s16_shift (x : Z) : s16 (x + 65536) = s16 x.
Proof.
  unfold s16, sint. change (2 ^ 16) with 65536.
  change (2 ^ (16 - 1)) with 32768.
  replace (x + 65536 + 32768) with (x + 32768 + 1 * 65536) by lia.
  rewrite Z_mod_plus_full. reflexivity.
Qed.

Lemma s16_above (x : Z) : 32768 <= x < 98304 -> s16 x = x - 65536.
Proof.
  intros H. unfold s16, sint. change (2 ^ 16) with 65536.
  change (2 ^ (16 - 1)) with 32768.
  replace (x + 32768) with (x - 32768 + 1 * 65536) by lia.
  rewrite Z_mod_plus_full, Z.mod_small by lia. lia.
Qed.

Section SGDMore.

Variable Tbits : Z.
Variable PRNG : Type.
Variable rand : PRNG -> Z -> Z * PRNG.
Hypothesis HT : 16 <= Tbits.

Lemma sgd_clamp_s16 (V : Z) :
  SGD.clamp Tbits V = Z.max (-24576) (Z.min 24575 (s16 V)).
Proof using HT.
  unfold SGD.clamp.
  pose proof (pow2_15_le Tbits HT) as L. change (2 ^ 15) with 32768 in L.
  pose proof (s16_bounds V) as B.
  rewrite Ztrunc_clamp_hi, Ztrunc_clamp_lo.
  assert (M : imin 24575 (s16 V) = Z.min 24575 (s16 V)).
  { unfold imin. destruct (Z.ltb_spec (s16 V) 24575); lia. }
  rewrite M.
  rewrite (sint_range Tbits (Z.min 24575 (s16 V))) by lia.
  assert (E : s16 (Z.min 24575 (s16 V)) = Z.min 24575 (s16 V)).
  { unfold s16 at 1. apply sint_range; [lia|].
    change (2 ^ (16 - 1)) with 32768. lia. }
  rewrite E.
  assert (N : imax (-24576) (Z.min 24575 (s16 V))
              = Z.max (-24576) (Z.min 24575 (s16 V))).
  { unfold imax. destruct (Z.ltb_spec (-24576) (Z.min 24575 (s16 V))); lia. }
  rewrite N. apply sint_range; lia.
Qed.

(** X7: the two bounding lines of the sign update see only the low 16
    bits of [V]: the result is the [s16] conversion of [V] bounded to
    [-24576 .. 24575].  So the result is always within these bounds,
    adding [2^16] to [V] changes nothing, and a [V] of 32768 to 40960
    (possible when [T] is wider than 16 bits) is stored as -24576. *)
Theorem sgd_clamp_low_16_bits :
  forall V,
    SGD.clamp Tbits V = Z.max (-24576) (Z.min 24575 (s16 V)) /\
    -24576 <= SGD.clamp Tbits V <= 24575 /\
    SGD.clamp Tbits (V + 65536) = SGD.clamp Tbits V /\
    (32768 <= V <= 40960 -> SGD.clamp Tbits V = -24576).
Proof using HT.
  intros V. rewrite !sgd_clamp_s16, s16_shift.
  split; [reflexivity|]. split; [lia|]. split; [reflexivity|].
  intros H. rewrite s16_above by lia. lia.
Qed.

Lemma sgd_body_other (w : SGD.Weight) (i j : nat) (st : PRNG * array2 Z) :
  (i < 2)%nat -> (j < 2)%nat -> i <> j ->
  aget (snd (SGD.updateFV_body Tbits PRNG rand w i st)) j = aget (snd st) j.
Proof.
  intros Hi Hj Hne. destruct st as [s v]. unfold SGD.updateFV_body.
  destruct (SFeqb _ _); [reflexivity|].
  destruct (rand s 3) as [r s1].
  destruct (SGD.on_draw _ _ _ _); [|reflexivity].
  cbn [snd]. apply aget_aset_other; assumption.
Qed.

Lemma sgd_body_same (w : SGD.Weight) (i : nat) (s : PRNG) (v : array2 Z) :
  let v' := snd (SGD.updateFV_body Tbits PRNG rand w i (s, v)) in
  aget v' i = aget v i \/
  aget v' i = SGD.nudge Tbits (aget (SGD.g w) i) (aget v i).
Proof.
  unfold SGD.updateFV_body.
  destruct (SFeqb _ _); [left; reflexivity|].
  destruct (rand s 3) as [r s1]. unfold SGD.on_draw.
  destruct (negb (r =? 0)); [left; reflexivity|].
  right. cbn [snd]. apply aget_aset_same.
Qed.

Lemma sgd_updateFV_same (w : SGD.Weight) (i : nat) (s : PRNG) (v : array2 Z) :
  (i < 2)%nat ->
  let v' := snd (SGD.updateFV Tbits PRNG rand w s v) in
  aget v' i = aget v i \/
  aget v' i = SGD.nudge Tbits (aget (SGD.g w) i) (aget v i).
Proof.
  intros Hi. unfold SGD.updateFV. cbn [fold_left].
  destruct i as [| [| i]]; [| | lia].
  - cbv zeta. rewrite sgd_body_other by lia.
    apply sgd_body_same.
  - pose proof (sgd_body_other w 0 1 (s, v)) as O. cbn [snd] in O.
    rewrite <- O by lia.
    destruct (SGD.updateFV_body Tbits PRNG rand w 0 (s, v)) as [s1 v1].
    cbn [snd]. apply sgd_body_same.
Qed.

Lemma sgd_nudge_step (gi : spec_float) (vi : Z) :
  -24576 <= vi <= 24575 ->
  -24576 <= SGD.nudge Tbits gi vi <= 24575 /\
  -1 <= SGD.nudge Tbits gi vi - vi <= 1.
Proof using HT.
  intros Hv. unfold SGD.nudge. rewrite sgd_clamp_s16.
  pose proof (pow2_15_le Tbits HT) as L. change (2 ^ 15) with 32768 in L.
  assert (E16 : forall x, -32768 <= x < 32768 -> s16 x = x).
  { intros x Hx. unfold s16. apply sint_range; [lia|].
    change (2 ^ (16 - 1)) with 32768. lia. }
  unfold SGD.sign_step.
  destruct (SFltb _ _); rewrite sint_range by lia; rewrite E16 by lia; lia.
Qed.

(** X8: after [updateFV] each live value is either the one before or
    within [-24576 .. 24575]; a value that was within these bounds stays
    within them and moves by at most 1. *)
Theorem sgd_updateFV_in_bounds :
  forall (w : SGD.Weight) (s : PRNG) (v : array2 Z) (i : nat),
    (i < 2)%nat ->
    let v' := snd (SGD.updateFV Tbits PRNG rand w s v) in
    (aget v' i = aget v i \/ -24576 <= aget v' i <= 24575) /\
    (-24576 <= aget v i <= 24575 ->
     -24576 <= aget v' i <= 24575 /\ -1 <= aget v' i - aget v i <= 1).
Proof using HT.
  intros w s v i Hi v'. subst v'.
  destruct (sgd_updateFV_same w i s v Hi) as [E | E]; rewrite E.
  - split; [left; reflexivity|]. intros H. lia.
  - split.
    + right. unfold SGD.nudge. rewrite sgd_clamp_s16. lia.
    + intros H. apply sgd_nudge_step. exact H.
Qed.

End SGDMore.

Section SGDDraws.

Variable Tbits : Z.
Variable PRNG : Type.
Variable rand : PRNG -> Z -> Z * PRNG.

Lemma sgd_body_state (w : SGD.Weight) (i : nat) (s : PRNG) (v : array2 Z) :
  fst (SGD.updateFV_body Tbits PRNG rand w i (s, v)) =
  if SFeqb (aget (SGD.g w) i) (S754_zero false) then s
  else snd (rand s 3).
Proof.
  unfold SGD.updateFV_body.
  destruct (SFeqb _ _); [reflexivity|].
  destruct (rand s 3) as [r s1].
  destruct (SGD.on_draw _ _ _ _); reflexivity.
Qed.

(** X9: [updateFV] calls [rand.rand(3)] once for each channel whose
    gradient is not zero, channel 0 first, whether or not the draw lets
    the update through, and not at all for a channel whose gradient is
    zero. *)
Theorem sgd_updateFV_draws :
  forall (w : SGD.Weight) (s : PRNG) (v : array2 Z),
    fst (SGD.updateFV Tbits PRNG rand w s v) =
    let s1 := if SFeqb (aget (SGD.g w) 0) (S754_zero false) then s
              else snd (rand s 3) in
    if SFeqb (aget (SGD.g w) 1) (S754_zero false) then s1
    else snd (rand s1 3).
Proof.
  intros w s v. unfold SGD.updateFV. cbn [fold_left].
  pose proof (sgd_body_state w 0 s v) as E0.
  destruct (SGD.updateFV_body Tbits PRNG rand w 0 (s, v)) as [s1 v1].
  cbn [fst] in E0. rewrite sgd_body_state, E0. reflexivity.
Qed.

(** X10: a NaN gradient is not skipped: it costs a draw, and when the
    draw is 0 the value is stepped up by 1 as for a negative gradient. *)
Theorem sgd_nan_gradient_steps_up :
  forall (w : SGD.Weight) (s : PRNG) (v : array2 Z) (i : nat),
    aget (SGD.g w) i = S754_nan ->
    SGD.updateFV_body Tbits PRNG rand w i (s, v) =
    (snd (rand s 3),
     if fst (rand s 3) =? 0
     then aset v i (SGD.clamp Tbits (sint Tbits (aget v i + 1)))
     else v).
Proof.
  intros w s v i Hg. unfold SGD.updateFV_body. rewrite Hg.
  cbn [SFeqb SFcompare]. destruct (rand s 3) as [r s1]. cbn [fst snd].
  unfold SGD.on_draw. destruct (r =? 0); reflexivity.
Qed.

End SGDDraws.

(** ** More on the AdaGrad update *)

Lemma SFsub_nan_r (p e : Z) (x : spec_float) : SFsub p e x S754_nan = S754_nan.
Proof. destruct x; reflexivity. Qed.

Lemma SFdiv_nan_r (p e : Z) (x : spec_float) : SFdiv p e x S754_nan = S754_nan.
Proof. destruct x; reflexivity. Qed.

Lemma SFmul_nan_r (p e : Z) (x : spec_float) : SFmul p e x S754_nan = S754_nan.
Proof. destruct x; reflexivity. Qed.

Lemma SFadd_nan_r (p e : Z) (x : spec_float) : SFadd p e x S754_nan = S754_nan.
Proof. destruct x; reflexivity. Qed.

Lemma clamp_of_nan :
  dmax clamp_lo (dmin clamp_hi S754_nan) = clamp_hi.
Proof. vm_compute. reflexivity. Qed.

Lemma carry_at_clamp_hi :
  s8 (Ztrunc (dmul (dsub clamp_hi (double_of_Z 24575)) (double_of_Z 127)))
  = 31.
Proof. vm_compute. reflexivity. Qed.

Lemma round_clamp_hi : Ztrunc (dround clamp_hi) = 24575.
Proof. vm_compute. reflexivity. Qed.

(** X13: the two bounding lines never give a NaN or an infinity,
    whatever [V] is, and a NaN [V] becomes the upper bound:
    [std::min(bound, V)] keeps its first argument when the comparison
    fails. *)
Theorem clamp_lines_finite :
  forall V : spec_float,
    match dmax clamp_lo (dmin clamp_hi V) with
    | S754_nan | S754_infinity _ => False
    | _ => True
    end /\
    dmax clamp_lo (dmin clamp_hi S754_nan) = clamp_hi /\
    dmax clamp_lo (dmin clamp_hi (S754_infinity false)) = clamp_hi /\
    dmax clamp_lo (dmin clamp_hi (S754_infinity true)) = clamp_lo.
Proof.
  intros V. split; [|split; [|split]; vm_compute; reflexivity].
  unfold dmin. destruct (SFltb V clamp_hi) eqn:Ehi; [|vm_compute; exact I].
  unfold dmax. destruct (SFltb clamp_lo V) eqn:Elo; [|vm_compute; exact I].
  rewrite clamp_hi_eq in Ehi. rewrite clamp_lo_eq in Elo.
  destruct V as [s | s | | s m e]; try exact I.
  - destruct s; discriminate.
  - discriminate.
Qed.

Section AdaGradMore.

Variables lprec lemax Tbits : Z.
Variable eta : spec_float.

Local Abbreviation abody := (AdaGrad.updateFV_body lprec lemax Tbits eta).
Local Abbreviation aupdate := (AdaGrad.updateFV lprec lemax Tbits eta).

(** The channel [i] of the result of [updateFV] is the channel [i] of
    the result of the loop body for [i] alone. *)
Lemma adagrad_channel_result (w : AdaGrad.Weight) (v : array2 Z) (i : nat) :
  (i < 2)%nat ->
  aget (snd (aupdate w v)) i = aget (snd (abody i (w, v))) i /\
  aget (AdaGrad.v8 (fst (aupdate w v))) i
  = aget (AdaGrad.v8 (fst (abody i (w, v)))) i /\
  aget (AdaGrad.g2 (fst (aupdate w v))) i
  = aget (AdaGrad.g2 (fst (abody i (w, v)))) i.
Proof.
  intros Hi. unfold AdaGrad.updateFV. cbn [fold_left].
  destruct i as [| [| i]]; [| | lia].
  - apply (adagrad_body_other lprec lemax Tbits eta 1 0); lia.
  - destruct (adagrad_body_other lprec lemax Tbits eta 0 1 (w, v))
      as (A & B & C); try lia.
    pose proof (adagrad_body_g lprec lemax Tbits eta 0 (w, v)) as G.
    destruct (abody 0%nat (w, v)) as [w1 v1]. cbn [fst snd] in *.
    unfold AdaGrad.updateFV_body. rewrite G, A, B, C.
    destruct (SFeqb _ _); cbn [fst snd AdaGrad.v8 AdaGrad.g2];
      rewrite ?aget_aset_same; auto.
Qed.

(** X11: [updateFV] leaves the accumulated gradients as they are (it
    is the caller who clears them), and what it stores for a channel
    depends on that channel's gradient, squared sum, carry and live
    value only. *)
Theorem adagrad_updateFV_frame :
  (forall w v, AdaGrad.g (fst (aupdate w v)) = AdaGrad.g w) /\
  (forall w1 v1 w2 v2 i,
     (i < 2)%nat ->
     aget (AdaGrad.g w1) i = aget (AdaGrad.g w2) i ->
     aget (AdaGrad.g2 w1) i = aget (AdaGrad.g2 w2) i ->
     aget (AdaGrad.v8 w1) i = aget (AdaGrad.v8 w2) i ->
     aget v1 i = aget v2 i ->
     aget (snd (aupdate w1 v1)) i = aget (snd (aupdate w2 v2)) i /\
     aget (AdaGrad.v8 (fst (aupdate w1 v1))) i
     = aget (AdaGrad.v8 (fst (aupdate w2 v2))) i /\
     aget (AdaGrad.g2 (fst (aupdate w1 v1))) i
     = aget (AdaGrad.g2 (fst (aupdate w2 v2))) i).
Proof.
  split.
  - intros w v. unfold AdaGrad.updateFV. cbn [fold_left].
    rewrite !adagrad_body_g. reflexivity.
  - intros w1 v1 w2 v2 i Hi Eg Eg2 Ev8 Ev.
    destruct (adagrad_channel_result w1 v1 i Hi) as (A1 & B1 & C1).
    destruct (adagrad_channel_result w2 v2 i Hi) as (A2 & B2 & C2).
    rewrite A1, B1, C1, A2, B2, C2.
    unfold AdaGrad.updateFV_body. rewrite Eg, Eg2, Ev8, Ev.
    destruct (SFeqb _ _); cbn [fst snd AdaGrad.v8 AdaGrad.g2];
      rewrite ?aget_aset_same; auto.
Qed.

(** X12: when the gradient of a channel is NaN, or its squared sum is
    NaN, or [eta] is NaN (and the gradient is not zero), [updateFV]
    stores the upper bound 24575 with carry 31; in the first two cases
    the squared sum is NaN afterwards, so the channel stays there. *)
Theorem adagrad_nan_saturates :
  forall (w : AdaGrad.Weight) (v : array2 Z) (i : nat),
    16 <= Tbits -> (i < 2)%nat ->
    SFeqb (aget (AdaGrad.g w) i) (S754_zero false) = false ->
    aget (AdaGrad.g w) i = S754_nan \/ aget (AdaGrad.g2 w) i = S754_nan
    \/ eta = S754_nan ->
    aget (snd (aupdate w v)) i = 24575 /\
    aget (AdaGrad.v8 (fst (aupdate w v))) i = 31 /\
    (aget (AdaGrad.g w) i = S754_nan \/ aget (AdaGrad.g2 w) i = S754_nan ->
     aget (AdaGrad.g2 (fst (aupdate w v))) i = S754_nan).
Proof.
  intros w v i HT Hi Hg Hn.
  destruct (adagrad_channel_result w v i Hi) as (A & B & C).
  rewrite A, B, C. unfold AdaGrad.updateFV_body. rewrite Hg.
  cbn [fst snd AdaGrad.v8 AdaGrad.g2]. rewrite !aget_aset_same.
  assert (G2 : aget (AdaGrad.g w) i = S754_nan \/
               aget (AdaGrad.g2 w) i = S754_nan ->
               SFadd lprec lemax (aget (AdaGrad.g2 w) i)
                 (SFmul lprec lemax (aget (AdaGrad.g w) i)
                    (aget (AdaGrad.g w) i)) = S754_nan).
  { intros [E | E]; rewrite E.
    - cbn [SFmul]. apply SFadd_nan_r.
    - reflexivity. }
  match goal with
  | |- context [dmin clamp_hi ?V] => assert (N : V = S754_nan)
  end.
  { unfold dsub, ddiv, dmul, dsqrt, dadd.
    destruct Hn as [E | [E | E]].
    - rewrite E. cbn [double_of_float].
      rewrite SFmul_nan_r. cbn [SFdiv]. apply SFsub_nan_r.
    - rewrite (G2 (or_intror E)). cbn [double_of_float SFadd SFsqrt].
      rewrite SFdiv_nan_r. apply SFsub_nan_r.
    - rewrite E. cbn [SFmul SFdiv]. apply SFsub_nan_r. }
  rewrite N, clamp_of_nan, round_clamp_hi.
  pose proof (pow2_15_le Tbits HT) as L. change (2 ^ 15) with 32768 in L.
  rewrite sint_range by lia.
  split; [reflexivity|]. split; [exact carry_at_clamp_hi | exact G2].
Qed.

End AdaGradMore.

(** *** Instances of the update properties *)

Lemma sgd_clamp_low_16_bits_witness :
  16 <= 32 /\
  SGD.clamp 32 32768 = -24576 /\
  SGD.clamp 32 (100 + 65536) = SGD.clamp 32 100.
Proof.
  assert (H : 16 <= 32) by (vm_compute; discriminate).
  destruct (sgd_clamp_low_16_bits 32 H 32768) as (_ & _ & _ & A).
  destruct (sgd_clamp_low_16_bits 32 H 100) as (_ & _ & B & _).
  split; [exact H|]. split; [apply A; lia | exact B].
Defined.

Lemma sgd_updateFV_in_bounds_witness :
  16 <= 16 /\
  let v' := snd (SGD.updateFV 16 (list Z) SGD.script_rand sgd_sample
                              [0; 0] (-24576, 24575)) in
  -24576 <= aget v' 0 <= 24575 /\ -1 <= aget v' 0 - -24576 <= 1.
Proof.
  split; [apply Z.le_refl|].
  apply (proj2 (sgd_updateFV_in_bounds 16 (list Z) SGD.script_rand
                  (Z.le_refl 16) sgd_sample [0; 0] (-24576, 24575) 0%nat
                  (Nat.lt_0_succ 1))).
  cbn. lia.
Defined.

Lemma sgd_nan_gradient_steps_up_witness :
  aget (SGD.g (SGD.mkWeight (S754_nan, S754_zero false))) 0 = S754_nan /\
  SGD.updateFV_body 16 (list Z) SGD.script_rand
    (SGD.mkWeight (S754_nan, S754_zero false)) 0 ([0], (7, 0))
  = ([], (8, 0)).
Proof.
  split; [reflexivity|].
  etransitivity;
    [exact (sgd_nan_gradient_steps_up 16 (list Z) SGD.script_rand
              (SGD.mkWeight (S754_nan, S754_zero false)) [0] (7, 0) 0%nat
              eq_refl)|].
  vm_compute. reflexivity.
Defined.

Lemma adagrad_updateFV_frame_witness :
  let w1 := adagrad_sample in
  let w2 := AdaGrad.mkWeight (float_of_Z 1, float_of_Z 9)
                             (S754_zero false, float_of_Z 2) (0, 77) in
  aget (snd (AdaGrad.updateFV prec32 emax32 16 eta_30 w1 (100, 0))) 0
  = aget (snd (AdaGrad.updateFV prec32 emax32 16 eta_30 w2 (100, 5))) 0 /\
  AdaGrad.g (fst (AdaGrad.updateFV prec32 emax32 16 eta_30 w2 (100, 5)))
  = AdaGrad.g w2.
Proof.
  cbv zeta.
  destruct (adagrad_updateFV_frame prec32 emax32 16 eta_30) as [G N].
  split; [|apply G].
  apply (N adagrad_sample (100, 0)
           (AdaGrad.mkWeight (float_of_Z 1, float_of_Z 9)
                             (S754_zero false, float_of_Z 2) (0, 77))
           (100, 5) 0%nat (Nat.lt_0_succ 1)); reflexivity.
Defined.

Lemma adagrad_nan_saturates_witness :
  16 <= 16 /\
  let w := AdaGrad.mkWeight (float_of_Z 1, S754_zero false)
                            (S754_nan, S754_zero false) (0, 0) in
  SFeqb (aget (AdaGrad.g w) 0) (S754_zero false) = false /\
  aget (snd (AdaGrad.updateFV prec32 emax32 16 eta_30 w (-100, 0))) 0 = 24575.
Proof.
  split; [apply Z.le_refl|]. cbv zeta. split; [reflexivity|].
  apply (adagrad_nan_saturates prec32 emax32 16 eta_30
           (AdaGrad.mkWeight (float_of_Z 1, S754_zero false)
                             (S754_nan, S754_zero false) (0, 0))
           (-100, 0) 0%nat (Z.le_refl 16) (Nat.lt_0_succ 1) eq_refl).
  right. left. reflexivity.
Defined.

(** ** The bits dropped by a shift *)

Lemma shr_1_even (mrs : shr_record) :
  0 <= shr_m mrs -> shr_r mrs = false -> shr_s mrs = false ->
  (2 | shr_m mrs) ->
  shr_r (shr_1 mrs) = false /\ shr_s (shr_1 mrs) = false.
Proof.
  destruct mrs as [m r s]. cbn [shr_m shr_r shr_s]. intros Hm -> -> [q Hq].
  destruct m as [| p | p]; [split; reflexivity | | lia].
  destruct p as [p | p |]; [lia | split; reflexivity | lia].
Qed.

Lemma pow2_divide_split (a b m : Z) :
  0 <= a -> 0 <= b -> (2 ^ (a + b) | m) ->
  (2 ^ a | m) /\ (2 ^ b | m / 2 ^ a).
Proof.
  intros Ha Hb [q Hq]. rewrite Z.pow_add_r in Hq by lia.
  assert (P : 0 < 2 ^ a) by (apply Z.pow_pos_nonneg; lia).
  split.
  - exists (q * 2 ^ b). lia.
  - exists q. replace m with (q * 2 ^ b * 2 ^ a) by lia.
    rewrite Z.div_mul by lia. reflexivity.
Qed.

Lemma iter_shr_1_div (p : positive) (mrs : shr_record) :
  0 <= shr_m mrs ->
  shr_m (iter_pos shr_1 p mrs) = shr_m mrs / 2 ^ Zpos p.
Proof.
  intros H. rewrite iter_shr_1_quot.
  apply Z.quot_div_nonneg; [exact H | apply Z.pow_pos_nonneg; lia].
Qed.

Lemma iter_shr_1_exact (p : positive) :
  forall mrs,
    0 <= shr_m mrs -> shr_r mrs = false -> shr_s mrs = false ->
    (2 ^ Zpos p | shr_m mrs) ->
    shr_r (iter_pos shr_1 p mrs) = false /\
    shr_s (iter_pos shr_1 p mrs) = false.
Proof.
  induction p as [p IH | p IH |]; intros mrs Hm Hr Hs Hd; cbn [iter_pos].
  - replace (Zpos p~1) with (1 + (Zpos p + Zpos p)) in Hd by lia.
    destruct (pow2_divide_split 1 (Zpos p + Zpos p) _ ltac:(lia) ltac:(lia) Hd)
      as [D1 D2].
    change (2 ^ 1) with 2 in D1, D2.
    destruct (shr_1_even mrs Hm Hr Hs D1) as [R1 S1].
    assert (M1 : shr_m (shr_1 mrs) = shr_m mrs / 2).
    { rewrite shr_1_quot. apply Z.quot_div_nonneg; lia. }
    assert (N1 : 0 <= shr_m (shr_1 mrs)).
    { rewrite M1. apply Z.div_pos; lia. }
    rewrite <- M1 in D2.
    destruct (pow2_divide_split (Zpos p) (Zpos p) _ ltac:(lia) ltac:(lia) D2)
      as [D3 D4].
    destruct (IH _ N1 R1 S1 D3) as [R2 S2].
    assert (N2 : 0 <= shr_m (iter_pos shr_1 p (shr_1 mrs))).
    { rewrite iter_shr_1_div by exact N1. apply Z.div_pos;
        [exact N1 | apply Z.pow_pos_nonneg; lia]. }
    rewrite <- (iter_shr_1_div p _ N1) in D4.
    exact (IH _ N2 R2 S2 D4).
  - replace (Zpos p~0) with (Zpos p + Zpos p) in Hd by lia.
    destruct (pow2_divide_split (Zpos p) (Zpos p) _ ltac:(lia) ltac:(lia) Hd)
      as [D3 D4].
    destruct (IH _ Hm Hr Hs D3) as [R2 S2].
    assert (N2 : 0 <= shr_m (iter_pos shr_1 p mrs)).
    { rewrite iter_shr_1_div by exact Hm. apply Z.div_pos;
        [exact Hm | apply Z.pow_pos_nonneg; lia]. }
    rewrite <- (iter_shr_1_div p _ Hm) in D4.
    exact (IH _ N2 R2 S2 D4).
  - apply shr_1_even; assumption.
Qed.

Lemma round_nearest_even_le (m : Z) (l : location) :
  m <= round_nearest_even m l <= m + 1.
Proof.
  destruct l as [| []]; cbn [round_nearest_even]; try lia.
  destruct (Z.even m); lia.
Qed.

(** ** Rounding below a bound *)

Lemma pow2_split (a b : Z) : 0 <= a -> 0 <= b -> 2 ^ (a + b) = 2 ^ a * 2 ^ b.
Proof. intros. apply Z.pow_add_r; assumption. Qed.

Lemma pow2le_trunc (m e c n : Z) :
  0 <= m -> 0 <= c -> 0 < n ->
  pow2le m e c -> pow2le (m / 2 ^ n) (e + n) c.
Proof.
  intros Hm Hc Hn [P1 P2].
  assert (Pn : 0 < 2 ^ n) by (apply Z.pow_pos_nonneg; lia).
  pose proof (Z.mul_div_le m (2 ^ n) Pn) as T.
  assert (T0 : 0 <= m / 2 ^ n) by (apply Z.div_pos; lia).
  remember (m / 2 ^ n) as m' eqn:Em'.
  split; intros He.
  - destruct (Z.lt_ge_cases e 0) as [L | L].
    + specialize (P2 L).
      assert (E : 2 ^ n = 2 ^ (e + n) * 2 ^ (- e)).
      { rewrite <- pow2_split by lia. f_equal. lia. }
      assert (Pe : 0 < 2 ^ (- e)) by (apply Z.pow_pos_nonneg; lia).
      assert (Pq : 0 < 2 ^ (e + n)) by (apply Z.pow_pos_nonneg; lia).
      remember (2 ^ (- e)) as a. remember (2 ^ (e + n)) as b.
      remember (2 ^ n) as t. nia.
    + specialize (P1 L).
      assert (E : 2 ^ (e + n) = 2 ^ e * 2 ^ n) by (apply pow2_split; lia).
      assert (Pe : 0 < 2 ^ e) by (apply Z.pow_pos_nonneg; lia).
      rewrite E. remember (2 ^ e) as a. remember (2 ^ n) as t. nia.
  - assert (L : e < 0) by lia. specialize (P2 L).
    assert (E : 2 ^ (- e) = 2 ^ (- (e + n)) * 2 ^ n).
    { rewrite <- pow2_split by lia. f_equal. lia. }
    rewrite Em'. apply Z.div_le_upper_bound; [exact Pn|].
    rewrite E in P2. lia.
Qed.

Lemma pow2le_digits (p : positive) (e c : Z) :
  0 <= c <= 2 ^ 52 -> pow2le (Zpos p) (e + 1) c ->
  Zpos (digits2_pos p) + e <= 52.
Proof.
  intros Hc [P1 P2].
  pose proof (digits2_pos_lower p) as L.
  remember (Zpos (digits2_pos p)) as d eqn:Ed.
  assert (Hd : 1 <= d) by lia.
  destruct (Z.le_gt_cases (d + e) 52) as [C | C]; [exact C | exfalso].
  destruct (Z.lt_ge_cases (e + 1) 0) as [N | N].
  - specialize (P2 N).
    assert (M : c * 2 ^ (- (e + 1)) <= 2 ^ 52 * 2 ^ (- (e + 1))).
    { apply Z.mul_le_mono_nonneg_r; [apply Z.pow_nonneg; lia | lia]. }
    rewrite <- pow2_split in M by lia.
    assert (Q : 2 ^ (52 + - (e + 1)) < 2 ^ (d - 1))
      by (apply Z.pow_lt_mono_r; lia).
    lia.
  - specialize (P1 N).
    assert (Q : 2 ^ 52 < 2 ^ (d - 1 + (e + 1))) by (apply Z.pow_lt_mono_r; lia).
    rewrite pow2_split in Q by lia.
    assert (M : 2 ^ (d - 1) * 2 ^ (e + 1) <= Zpos p * 2 ^ (e + 1)).
    { apply Z.mul_le_mono_nonneg_r; [apply Z.pow_nonneg; lia | lia]. }
    lia.
Qed.

Lemma shifted_round_le (p q : positive) (ex c : Z) :
  0 <= c -> ex + Zpos q + 1 <= 0 ->
  pow2le (Zpos p) (ex + 1) c ->
  let mrs := iter_pos shr_1 q (shr_record_of_loc (Zpos p) loc_Exact) in
  let m1 := round_nearest_even (shr_m mrs) (loc_of_shr_record mrs) in
  0 <= m1 /\ pow2le m1 (ex + Zpos q + 1) c.
Proof.
  intros Hc He [_ P2] mrs m1.
  assert (L : ex + 1 < 0) by lia. specialize (P2 L).
  assert (Pq : 0 < 2 ^ Zpos q) by (apply Z.pow_pos_nonneg; lia).
  assert (E : 2 ^ (- (ex + 1)) = 2 ^ (- (ex + Zpos q + 1)) * 2 ^ Zpos q).
  { rewrite <- pow2_split by lia. f_equal. lia. }
  remember (c * 2 ^ (- (ex + Zpos q + 1))) as C eqn:EC.
  assert (B : Zpos p <= C * 2 ^ Zpos q).
  { rewrite EC, <- Z.mul_assoc, <- E. exact P2. }
  assert (M : shr_m mrs = Zpos p / 2 ^ Zpos q).
  { unfold mrs. rewrite iter_shr_1_div; cbn [shr_record_of_loc shr_m]; lia. }
  assert (M0 : 0 <= shr_m mrs) by (rewrite M; apply Z.div_pos; lia).
  assert (MC : shr_m mrs <= C).
  { rewrite M. apply Z.div_le_upper_bound; lia. }
  pose proof (round_nearest_even_le (shr_m mrs) (loc_of_shr_record mrs)) as R.
  fold m1 in R.
  assert (G : m1 <= C).
  { destruct (Z.eq_dec (shr_m mrs) C) as [EQ | NE]; [|lia].
    assert (D : (2 ^ Zpos q | Zpos p)).
    { exists C. pose proof (Z.mul_div_le (Zpos p) (2 ^ Zpos q) Pq) as T.
      rewrite <- M, EQ in T. lia. }
    destruct (iter_shr_1_exact q (shr_record_of_loc (Zpos p) loc_Exact))
      as [R0 S0]; cbn [shr_record_of_loc shr_m shr_r shr_s];
      try reflexivity; try lia; try exact D.
    fold mrs in R0, S0. unfold m1.
    destruct mrs as [mm rr ss]. cbn [shr_r shr_s] in R0, S0. subst rr ss.
    cbn [loc_of_shr_record round_nearest_even shr_m] in *. lia. }
  split; [lia|]. split; intros H.
  - assert (Z0 : ex + Zpos q + 1 = 0) by lia.
    rewrite Z0 in *. cbn in EC. lia.
  - rewrite <- EC. exact G.
Qed.

Lemma round_aux_half_le (s : bool) (p : positive) (ex c : Z) :
  0 <= c <= 2 ^ 52 ->
  pow2le (Zpos p) (ex + 1) c ->
  half_le (binary_round_aux prec64 emax64 s (Zpos p) ex loc_Exact) c.
Proof.
  intros Hc Hp.
  pose proof (pow2le_digits p ex c Hc Hp) as D.
  unfold binary_round_aux.
  (* first shift *)
  assert (S1 : exists m1 e1,
             0 <= m1 /\ pow2le m1 (e1 + 1) c /\
             (let '(mrs', e') := shr_fexp prec64 emax64 (Zpos p) ex loc_Exact in
              (round_nearest_even (shr_m mrs') (loc_of_shr_record mrs'), e'))
             = (m1, e1)).
  { unfold shr_fexp, shr. cbn [Zdigits2].
    remember (fexp prec64 emax64 (Zpos (digits2_pos p) + ex) - ex) as n eqn:En.
    assert (Hn : ex + n + 1 <= 0).
    { subst n. unfold fexp, emin, prec64, emax64. lia. }
    destruct n as [| q | q].
    - exists (Zpos p), ex. cbn. repeat split; try lia; apply Hp.
    - destruct (shifted_round_le p q ex c (proj1 Hc) Hn Hp) as [A B].
      eexists _, _. split; [exact A|]. split; [|reflexivity].
      replace (ex + Zpos q + 1) with (ex + Zpos q + 1) by lia. exact B.
    - exists (Zpos p), ex. cbn. repeat split; try lia; apply Hp. }
  destruct S1 as (m1 & e1 & M0 & P1 & E1).
  destruct (shr_fexp prec64 emax64 (Zpos p) ex loc_Exact) as [mrs' e'].
  injection E1 as Em Ee. rewrite Em, Ee. clear Em Ee mrs' e'.
  (* second shift *)
  assert (S2 : exists m2 e2,
             0 <= m2 /\ pow2le m2 (e2 + 1) c /\
             (let '(mrs'', e'') := shr_fexp prec64 emax64 m1 e1 loc_Exact in
              (shr_m mrs'', e'')) = (m2, e2)).
  { unfold shr_fexp, shr.
    destruct (fexp prec64 emax64 (Zdigits2 m1 + e1) - e1) as [| q | q].
    - exists m1, e1. cbn. repeat split; try lia; apply P1.
    - exists (m1 / 2 ^ Zpos q), (e1 + Zpos q).
      split; [apply Z.div_pos; [lia | apply Z.pow_pos_nonneg; lia]|].
      split.
      + replace (e1 + Zpos q + 1) with (e1 + 1 + Zpos q) by lia.
        apply pow2le_trunc; try lia. exact P1.
      + rewrite iter_shr_1_div by (cbn; lia). reflexivity.
    - exists m1, e1. cbn. repeat split; try lia; apply P1. }
  destruct S2 as (m2 & e2 & N0 & P2 & E2).
  destruct (shr_fexp prec64 emax64 m1 e1 loc_Exact) as [mrs'' e''].
  injection E2 as Em Ee. rewrite Em, Ee. clear Em Ee mrs'' e''.
  destruct m2 as [| m | m]; [exact I | | lia].
  destruct (Z.leb_spec e2 (emax64 - prec64)) as [L | L]; [exact P2|].
  cbn [half_le]. unfold emax64, prec64 in L.
  destruct P2 as [Q _]. specialize (Q ltac:(lia)).
  assert (B : 2 ^ 53 <= 2 ^ (e2 + 1)) by (apply Z.pow_le_mono_r; lia).
  assert (T : 2 ^ 52 < 2 ^ 53) by reflexivity.
  remember (2 ^ (e2 + 1)) as t. remember (2 ^ 52) as a.
  remember (2 ^ 53) as b. nia.
Qed.

Lemma pow2le_shl (m e c d : Z) :
  0 <= m -> 0 <= c -> 0 < d ->
  pow2le m e c -> pow2le (m * 2 ^ d) (e - d) c.
Proof.
  intros Hm Hc Hd [P1 P2].
  assert (Pd : 0 < 2 ^ d) by (apply Z.pow_pos_nonneg; lia).
  split; intros He.
  - assert (L : 0 <= e) by lia. specialize (P1 L).
    replace e with (d + (e - d)) in P1 by lia.
    rewrite pow2_split in P1 by lia. lia.
  - destruct (Z.lt_ge_cases e 0) as [L | L].
    + specialize (P2 L).
      replace (- (e - d)) with (- e + d) by lia.
      rewrite pow2_split by lia.
      remember (2 ^ (- e)) as a. remember (2 ^ d) as t. nia.
    + specialize (P1 L).
      assert (E : 2 ^ d = 2 ^ (- (e - d)) * 2 ^ e).
      { rewrite <- pow2_split by lia. f_equal. lia. }
      assert (Pe : 0 < 2 ^ e) by (apply Z.pow_pos_nonneg; lia).
      assert (Pq : 0 < 2 ^ (- (e - d))) by (apply Z.pow_pos_nonneg; lia).
      rewrite E. remember (2 ^ e) as a. remember (2 ^ (- (e - d))) as b. nia.
Qed.

Lemma pow2le_scale (m e c k : Z) :
  0 <= k -> pow2le m e c -> pow2le (m * k) e (c * k).
Proof.
  intros Hk [P1 P2]. split; intros He.
  - specialize (P1 He). nia.
  - specialize (P2 He). nia.
Qed.

Lemma binary_round_half_le (s : bool) (p : positive) (e c : Z) :
  0 <= c <= 2 ^ 52 ->
  pow2le (Zpos p) (e + 1) c ->
  half_le (binary_round prec64 emax64 s p e) c.
Proof.
  intros Hc Hp. unfold binary_round, shl_align.
  destruct (fexp prec64 emax64 (Zpos (digits2_pos p) + e) - e)
    as [| d | d] eqn:Ed.
  - apply round_aux_half_le; assumption.
  - apply round_aux_half_le; assumption.
  - apply round_aux_half_le; [exact Hc|].
    destruct (iter_xO_spec p d) as [I1 _]. rewrite I1.
    replace (fexp prec64 emax64 (Zpos (digits2_pos p) + e) + 1)
      with (e + 1 - Zpos d) by lia.
    apply pow2le_shl; try lia. exact Hp.
Qed.

Lemma binary_normalize_half_le (m e c : Z) (sz : bool) :
  0 <= c <= 2 ^ 52 ->
  pow2le (Z.abs m) (e + 1) c ->
  half_le (binary_normalize prec64 emax64 m e sz) c.
Proof.
  intros Hc Hp. destruct m as [| p | p]; cbn [binary_normalize].
  - exact I.
  - apply binary_round_half_le; assumption.
  - apply binary_round_half_le; assumption.
Qed.

Lemma double_127_eq :
  double_of_Z 127 = S754_finite false 8936830510563328 (-46).
Proof. vm_compute. reflexivity. Qed.

Lemma dmul_127_half_le (x : spec_float) :
  half_le x 1 -> half_le (dmul x (double_of_Z 127)) 127.
Proof.
  intros H. rewrite double_127_eq. unfold dmul.
  destruct x as [s | s | | s m e]; cbn [half_le] in H; try contradiction.
  - exact I.
  - cbn [SFmul]. apply round_aux_half_le.
    + split; [lia|]. vm_compute. discriminate.
    + rewrite Pos2Z.inj_mul.
      replace (Zpos 8936830510563328) with (127 * 2 ^ 46) by reflexivity.
      replace (e + -46 + 1) with (e + 1 - 46) by lia.
      rewrite Z.mul_assoc. apply pow2le_shl; try lia.
      replace 127 with (1 * 127) at 2 by lia.
      apply pow2le_scale; [lia | exact H].
Qed.

Lemma Ztrunc_half_le (x : spec_float) :
  half_le x 127 -> -63 <= Ztrunc x <= 63.
Proof.
  destruct x as [s | s | | s m e]; cbn [half_le Ztrunc]; try contradiction;
    try lia.
  intros [P1 P2].
  assert (B : 0 <= match e with
                   | Zneg k => Zpos m / 2 ^ Zpos k
                   | _ => Zpos m * 2 ^ e
                   end <= 63).
  { destruct e as [| k | k].
    - specialize (P1 ltac:(lia)). cbn in P1. lia.
    - specialize (P1 ltac:(lia)).
      rewrite pow2_split in P1 by lia. change (2 ^ 1) with 2 in P1.
      assert (0 < 2 ^ Zpos k) by (apply Z.pow_pos_nonneg; lia).
      remember (2 ^ Zpos k) as t. nia.
    - assert (Pk : 0 < 2 ^ Zpos k) by (apply Z.pow_pos_nonneg; lia).
      split; [apply Z.div_pos; lia|].
      apply Z.lt_succ_r. apply Z.div_lt_upper_bound; [exact Pk|].
      destruct (Z.eq_dec (Zpos k) 1) as [K1 | K1].
      + assert (K : k = 1%positive) by lia. subst k.
        specialize (P1 ltac:(lia)). cbn in P1 |- *. lia.
      + specialize (P2 ltac:(lia)).
        assert (E : 2 ^ Zpos k = 2 * 2 ^ (- (Zneg k + 1))).
        { rewrite <- Z.pow_succ_r by lia. f_equal. lia. }
        remember (2 ^ (- (Zneg k + 1))) as h. lia. }
  destruct e, s; cbn [cond_Zopp]; lia.
Qed.

(** ** The residue after rounding *)

Lemma binary_round_int_form (s : bool) (q : positive) :
  Zpos q < 2 ^ 53 ->
  exists mn en,
    binary_round prec64 emax64 s q 0 = S754_finite s mn en /\
    en <= 0 /\ Zpos mn = Zpos q * 2 ^ (- en).
Proof.
  intros Hq.
  pose proof (digits2_pos_lower q) as L.
  assert (D : Zpos (digits2_pos q) <= 53).
  { destruct (Z.le_gt_cases (Zpos (digits2_pos q)) 53) as [C | C]; [exact C|].
    assert (2 ^ 53 <= 2 ^ (Zpos (digits2_pos q) - 1))
      by (apply Z.pow_le_mono_r; lia).
    lia. }
  unfold binary_round, shl_align.
  assert (F : fexp prec64 emax64 (Zpos (digits2_pos q) + 0)
              = Zpos (digits2_pos q) - 53).
  { unfold fexp, emin, prec64, emax64. lia. }
  rewrite F, Z.sub_0_r.
  destruct (Zpos (digits2_pos q) - 53) as [| k | k] eqn:Ek; try lia.
  - exists q, 0. rewrite binary_round_aux_exact by lia.
    split; [reflexivity|]. split; [lia|]. cbn. lia.
  - destruct (iter_xO_spec q k) as [I1 I2].
    exists (Pos.iter xO q k), (Zneg k).
    rewrite binary_round_aux_exact by lia.
    split; [reflexivity|]. split; [lia|]. rewrite I1. reflexivity.
Qed.

Lemma shl_align_fst (m : positive) (e ez : Z) :
  ez <= e -> Zpos (fst (shl_align m e ez)) = Zpos m * 2 ^ (e - ez).
Proof.
  intros H. unfold shl_align.
  destruct (ez - e) as [| d | d] eqn:Ed; try lia; cbn [fst].
  - replace (e - ez) with 0 by lia. cbn. lia.
  - destruct (iter_xO_spec m d) as [I1 _]. rewrite I1.
    f_equal. f_equal. lia.
Qed.

Lemma cond_Zopp_sub (s : bool) (a b : Z) :
  cond_Zopp s a - cond_Zopp s b = cond_Zopp s (a - b).
Proof. destruct s; cbn [cond_Zopp]; lia. Qed.

Lemma abs_cond_Zopp (s : bool) (a : Z) : Z.abs (cond_Zopp s a) = Z.abs a.
Proof. destruct s; cbn [cond_Zopp]; lia. Qed.

(** A finite [V] with a negative exponent less its rounding to the
    nearest integer is at most a half. *)
Lemma dsub_round_half (s : bool) (m k : positive) :
  let n := (Zpos m + 2 ^ (Zpos k - 1)) / 2 ^ Zpos k in
  n < 2 ^ 53 ->
  half_le (dsub (S754_finite s m (Zneg k)) (double_of_Z (cond_Zopp s n))) 1.
Proof.
  intros n Hn.
  assert (Pk : 0 < 2 ^ Zpos k) by (apply Z.pow_pos_nonneg; lia).
  assert (Ph : 0 < 2 ^ (Zpos k - 1)) by (apply Z.pow_pos_nonneg; lia).
  assert (Ek : 2 ^ Zpos k = 2 * 2 ^ (Zpos k - 1)).
  { rewrite <- Z.pow_succ_r by lia. f_equal. lia. }
  assert (N0 : 0 <= n) by (apply Z.div_pos; lia).
  pose proof (Z.mul_div_le (Zpos m + 2 ^ (Zpos k - 1)) (2 ^ Zpos k) Pk) as LO.
  pose proof (Z.mul_succ_div_gt (Zpos m + 2 ^ (Zpos k - 1)) (2 ^ Zpos k) Pk)
    as HI.
  fold n in LO, HI.
  assert (R : Z.abs (Zpos m - n * 2 ^ Zpos k) <= 2 ^ (Zpos k - 1)) by lia.
  unfold double_of_Z, dsub.
  destruct n as [| q | q] eqn:En; [| | lia].
  - (* the integer is 0 *)
    replace (cond_Zopp s 0) with 0 by (destruct s; reflexivity).
    cbn [binary_normalize SFsub half_le].
    split; intros H.
    + assert (K : k = 1%positive) by lia. subst k. cbn in *. lia.
    + replace (- (Zneg k + 1)) with (Zpos k - 1) by lia. lia.
  - assert (EN : binary_normalize prec64 emax64 (cond_Zopp s (Zpos q)) 0 false
                 = binary_round prec64 emax64 s q 0).
    { destruct s; reflexivity. }
    rewrite EN.
    destruct (binary_round_int_form s q Hn) as (mn & en & -> & Hen & Hmn).
    cbn [SFsub].
    remember (Z.min (Zneg k) en) as ez eqn:Eez.
    rewrite cond_Zopp_sub.
    apply binary_normalize_half_le; [split; [lia | vm_compute; discriminate]|].
    rewrite abs_cond_Zopp.
    rewrite !shl_align_fst by lia. rewrite Hmn.
    assert (Z1 : ez + 1 <= 0) by lia.
    assert (A1 : 2 ^ (- ez) = 2 ^ Zpos k * 2 ^ (Zneg k - ez)).
    { rewrite <- pow2_split by lia. f_equal. lia. }
    assert (A2 : 2 ^ (- en) * 2 ^ (en - ez) = 2 ^ (- ez)).
    { rewrite <- pow2_split by lia. f_equal. lia. }
    assert (A3 : 2 ^ (- (ez + 1)) = 2 ^ (Zpos k - 1) * 2 ^ (Zneg k - ez)).
    { rewrite <- pow2_split by lia. f_equal. lia. }
    assert (Pt : 0 < 2 ^ (Zneg k - ez)) by (apply Z.pow_pos_nonneg; lia).
    assert (B : Z.abs (Zpos m * 2 ^ (Zneg k - ez)
                       - Zpos q * 2 ^ (- en) * 2 ^ (en - ez))
                <= 2 ^ (- (ez + 1))).
    { rewrite <- Z.mul_assoc, A2, A1, A3.
      remember (2 ^ (Zneg k - ez)) as t. remember (2 ^ Zpos k) as u.
      remember (2 ^ (Zpos k - 1)) as h.
      replace (Zpos m * t - Zpos q * (u * t)) with ((Zpos m - Zpos q * u) * t)
        by ring.
      rewrite Z.abs_mul, (Z.abs_eq t) by lia.
      apply Z.mul_le_mono_nonneg_r; lia. }
    split; intros H.
    + assert (Z0 : ez + 1 = 0) by lia. rewrite Z0 in *. cbn in B |- *. lia.
    + rewrite Z.mul_1_l. exact B.
Qed.

Lemma clamp_form (V : spec_float) :
  mant_bounded prec64 V ->
  (exists s, dmax clamp_lo (dmin clamp_hi V) = S754_zero s) \/
  (exists s m k, dmax clamp_lo (dmin clamp_hi V) = S754_finite s m (Zneg k) /\
                 Zpos m < 2 ^ 53).
Proof.
  intros HV. unfold dmin.
  destruct (SFltb V clamp_hi) eqn:Ehi.
  2:{ right. exists false, 6755193282625536%positive, 38%positive.
      split; [vm_compute; reflexivity | reflexivity]. }
  unfold dmax. destruct (SFltb clamp_lo V) eqn:Elo.
  2:{ right. exists true, 6755399441055744%positive, 38%positive.
      split; [vm_compute; reflexivity | reflexivity]. }
  destruct V as [s | s | | s m e].
  - left. exists s. reflexivity.
  - rewrite clamp_hi_eq in Ehi. rewrite clamp_lo_eq in Elo.
    destruct s; discriminate.
  - discriminate.
  - right. cbn [mant_bounded] in HV. unfold prec64 in HV.
    apply ltb_clamp_hi in Ehi. apply ltb_clamp_lo in Elo.
    assert (He : e < 0).
    { destruct s.
      - destruct Elo as [Elo | Elo]; [discriminate | lia].
      - destruct Ehi as [Ehi | Ehi]; [discriminate | lia]. }
    destruct e as [| k | k]; try lia.
    exists s, m, k. split; [reflexivity | exact HV].
Qed.

Lemma round_away_le (m k : positive) :
  0 <= (Zpos m + 2 ^ (Zpos k - 1)) / 2 ^ Zpos k <= Zpos m.
Proof.
  assert (Ph : 0 < 2 ^ (Zpos k - 1)) by (apply Z.pow_pos_nonneg; lia).
  assert (Ek : 2 ^ Zpos k = 2 * 2 ^ (Zpos k - 1)).
  { rewrite <- Z.pow_succ_r by lia. f_equal. lia. }
  split; [apply Z.div_pos; lia|].
  apply Z.lt_succ_r. apply Z.div_lt_upper_bound; [lia|].
  rewrite Ek. remember (2 ^ (Zpos k - 1)) as h. nia.
Qed.

Lemma clamp_carry_range (Tbits : Z) (V : spec_float) :
  16 <= Tbits ->
  mant_bounded prec64 V ->
  let Vc := dmax clamp_lo (dmin clamp_hi V) in
  let vi := sint Tbits (Ztrunc (dround Vc)) in
  -63 <= s8 (Ztrunc (dmul (dsub Vc (double_of_Z vi)) (double_of_Z 127))) <= 63.
Proof.
  intros HT HV Vc vi.
  pose proof (clamp_round_range V HV) as R. fold Vc in R.
  pose proof (pow2_15_le Tbits HT) as L. change (2 ^ 15) with 32768 in L.
  assert (Evi : vi = Ztrunc (dround Vc)).
  { unfold vi. apply sint_range; lia. }
  assert (G : -63 <= Ztrunc (dmul (dsub Vc (double_of_Z vi)) (double_of_Z 127))
              <= 63).
  { destruct (clamp_form V HV) as [[s E] | (s & m & k & E & Hm)];
      fold Vc in E; rewrite Evi; rewrite E in *.
    - destruct s; vm_compute; split; discriminate.
    - pose proof (round_away_le m k) as N.
      cbn [dround Zround_away].
      rewrite double_of_int_exact
        by (destruct s; cbn [cond_Zopp]; lia).
      apply Ztrunc_half_le, dmul_127_half_le, dsub_round_half. lia. }
  unfold s8. rewrite sint_range; [exact G | lia |].
  change (2 ^ (8 - 1)) with 128. lia.
Qed.

Section AdaGradCarry.

Variables lprec lemax Tbits : Z.
Variable eta : spec_float.

(** X14: a channel with a nonzero gradient leaves [updateFV] with a
    fractional carry between -63 and 63: what is converted to [s8] is
    the residue of a rounding, at most a half, times 127. *)
Theorem adagrad_updateFV_carry_range :
  forall (w : AdaGrad.Weight) (v : array2 Z) (i : nat),
    16 <= Tbits ->
    (i < 2)%nat ->
    SFeqb (aget (AdaGrad.g w) i) (S754_zero false) = false ->
    let w' := fst (AdaGrad.updateFV lprec lemax Tbits eta w v) in
    -63 <= aget (AdaGrad.v8 w') i <= 63.
Proof.
  intros w v i HT Hi Hg. cbv zeta.
  destruct (adagrad_channel_result lprec lemax Tbits eta w v i Hi)
    as (_ & B & _).
  rewrite B. unfold AdaGrad.updateFV_body. rewrite Hg.
  cbn [fst AdaGrad.v8]. rewrite aget_aset_same.
  apply clamp_carry_range; [exact HT|].
  assert (P : 0 <= prec64) by (unfold prec64; lia).
  apply SFsub_bounded; [exact P | | apply SFdiv_bounded; exact P].
  apply SFadd_bounded; [exact P | | apply SFdiv_bounded; exact P].
  apply binary_normalize_bounded; exact P.
Qed.

End AdaGradCarry.

Lemma adagrad_updateFV_carry_range_witness :
  16 <= 16 /\
  SFeqb (aget (AdaGrad.g adagrad_sample_zero) 1) (S754_zero false) = false /\
  let w' := fst (AdaGrad.updateFV prec32 emax32 16
                                  (ddiv (double_of_Z 5) (double_of_Z 2))
                                  adagrad_sample_zero (7, 9)) in
  aget (AdaGrad.v8 w') 1 = -63 /\
  -63 <= aget (AdaGrad.v8 w') 1 <= 63.
Proof.
  split; [apply Z.le_refl|]. split; [reflexivity|]. cbv zeta.
  split; [vm_compute; reflexivity|].
  exact (adagrad_updateFV_carry_range prec32 emax32 16
           (ddiv (double_of_Z 5) (double_of_Z 2))
           adagrad_sample_zero (7, 9) 1%nat
           (Z.le_refl 16) Nat.lt_1_2 eq_refl).
Defined.
